(** * A53 SLA Ripper: the memory-scanning engine of [sla_ripper.py]

    A shallow embedding of the Firehose response classifier
    ([FirehoseXMLHandler.parse_response]), the USB error-recovery policy
    ([USBErrorRecovery]), the diagnostics collector ([SLAResponseLogger])
    and the scan controller with its two read channels ([QFPROMExtractor]),
    followed by the properties established about them.

    Python integers are [Z]; [bytes] objects are [list byte]; a decoded
    [str] whose content comes from the device is a list of code points;
    the other strings (status names, reasons, formatted lines) are
    [string]; the result dictionary [{address: hex_string}] is a
    [gmap Z string]. *)

From Stdlib Require Import ZArith NArith List String Ascii HexString QArith Lia Bool Sorted.
From Stdlib.Strings Require Import Byte.
From stdpp Require Import gmap strings list.

Import ListNotations.
Local Open Scope string_scope.
Local Open Scope Z_scope.

(** ** Number formatting *)

Module Fmt.

(** [format(n, 'x')] for a natural number. *)
Definition hex_of_N (n : N) : string :=
  match n with
  | N0 => "0"
  | Npos p => HexString.Raw.of_pos p EmptyString
  end.

Fixpoint zeros (k : nat) : string :=
  match k with
  | O => EmptyString
  | S k' => String "0" (zeros k')
  end.

(** Left padding with ['0'] up to [width] characters. *)
Definition zfill (width : nat) (s : string) : string :=
  zeros (width - String.length s) ++ s.

(** [f"{n:0{width}x}"]: the sign, when there is one, counts in the width. *)
Definition hex_padded (width : nat) (n : Z) : string :=
  match n with
  | Zneg p => String "-" (zfill (width - 1) (hex_of_N (Npos p)))
  | _ => zfill width (hex_of_N (Z.to_N n))
  end.

(** [f"0x{address:08x}"] *)
Definition addr08 (address : Z) : string := "0x" ++ hex_padded 8 address.

(** [f"{b:02x}"] *)
Definition hex2 (b : byte) : string := zfill 2 (hex_of_N (Byte.to_N b)).

(** [data.hex()] *)
Definition bytes_hex (data : list byte) : string :=
  fold_right (fun b acc => hex2 b ++ acc) EmptyString data.

(** [' '.join(f'{b:02x}' for b in data)] *)
Fixpoint hex_join (data : list byte) : string :=
  match data with
  | [] => EmptyString
  | [b] => hex2 b
  | b :: rest => hex2 b ++ " " ++ hex_join rest
  end.

End Fmt.

(** ** Decoded text *)

Module Text.

(** A Python [str] holding device data: its code points. *)
Definition text := list N.

Definition of_string (s : string) : text :=
  map N_of_ascii (list_ascii_of_string s).

Definition quote : N := 34%N.

Definition in_range (lo hi n : N) : bool := (lo <=? n)%N && (n <=? hi)%N.

Definition is_cont (n : N) : bool := in_range 128 191 n.

(** What a lead byte allows as its second byte (the well-formed UTF-8
    table: no overlong forms, no surrogates, nothing above U+10FFFF). *)
Definition second_ok (lead n : N) : bool :=
  if (lead =? 224)%N then in_range 160 191 n
  else if (lead =? 237)%N then in_range 128 159 n
  else if (lead =? 240)%N then in_range 144 191 n
  else if (lead =? 244)%N then in_range 128 143 n
  else is_cont n.

(** [response.decode('utf-8', errors='ignore')]: bytes that do not start a
    well-formed sequence are dropped and decoding resumes at the next
    byte. *)
Fixpoint utf8_decode_ignore (bs : list byte) : text :=
  match bs with
  | [] => []
  | b0 :: r0 =>
    let n0 := Byte.to_N b0 in
    if (n0 <? 128)%N then n0 :: utf8_decode_ignore r0
    else
      match r0 with
      | [] => []
      | b1 :: r1 =>
        let n1 := Byte.to_N b1 in
        if in_range 194 223 n0 then
          if is_cont n1
          then ((n0 - 192) * 64 + (n1 - 128))%N :: utf8_decode_ignore r1
          else utf8_decode_ignore r0
        else if in_range 224 239 n0 then
          match r1 with
          | b2 :: r2 =>
            let n2 := Byte.to_N b2 in
            if second_ok n0 n1 && is_cont n2
            then ((n0 - 224) * 4096 + (n1 - 128) * 64 + (n2 - 128))%N
                   :: utf8_decode_ignore r2
            else utf8_decode_ignore r0
          | [] => utf8_decode_ignore r0
          end
        else if in_range 240 244 n0 then
          match r1 with
          | b2 :: (b3 :: r3) =>
            let n2 := Byte.to_N b2 in
            let n3 := Byte.to_N b3 in
            if second_ok n0 n1 && is_cont n2 && is_cont n3
            then ((n0 - 240) * 262144 + (n1 - 128) * 4096
                  + (n2 - 128) * 64 + (n3 - 128))%N :: utf8_decode_ignore r3
            else utf8_decode_ignore r0
          | _ => utf8_decode_ignore r0
          end
        else utf8_decode_ignore r0
      end
  end.

Fixpoint starts_with (p s : text) : bool :=
  match p, s with
  | [], _ => true
  | _ :: _, [] => false
  | a :: p', b :: s' => (a =? b)%N && starts_with p' s'
  end.

(** [needle in haystack] on strings. *)
Fixpoint contains (needle hay : text) : bool :=
  starts_with needle hay ||
  match hay with
  | [] => false
  | _ :: hay' => contains needle hay'
  end.

Fixpoint strip (p s : text) : option text :=
  match p, s with
  | [], _ => Some s
  | _ :: _, [] => None
  | a :: p', b :: s' => if (a =? b)%N then strip p' s' else None
  end.

(** The longest run of characters other than the double quote, and what
    follows it. *)
Fixpoint span_unquoted (s : text) : text * text :=
  match s with
  | [] => ([], [])
  | c :: s' =>
    if (c =? quote)%N then ([], s)
    else let '(run, rest) := span_unquoted s' in (c :: run, rest)
  end.

(** An anchored match of the pattern: [value=], a double quote, a
    non-empty group of characters other than the double quote, and a
    double quote. *)
Definition match_value_here (s : text) : option text :=
  match strip (of_string "value=" ++ [quote])%list s with
  | None => None
  | Some after =>
    match span_unquoted after with
    | ((_ :: _) as run, c :: _) => if (c =? quote)%N then Some run else None
    | _ => None
    end
  end.

(** [re.search] of that pattern: the leftmost match, its group 1. *)
Fixpoint search_value (s : text) : option text :=
  match match_value_here s with
  | Some g => Some g
  | None =>
    match s with
    | [] => None
    | _ :: s' => search_value s'
    end
  end.

End Text.

(** ** Command codec: [FirehoseXMLHandler.parse_response] *)

Module FirehoseXMLHandler.
Import Text.

Record response_dict := {
  raw : string;
  text_ : text;
  status : string;
  error : option text;
  data : option (list byte)
}.

Definition set_status (s : string) (r : response_dict) : response_dict :=
  {| raw := raw r; text_ := text_ r; status := s; error := error r; data := data r |}.

Definition set_error (e : option text) (r : response_dict) : response_dict :=
  {| raw := raw r; text_ := text_ r; status := status r; error := e; data := data r |}.

(** The text rules, an [if]/[elif] chain on the decoded text. *)
Definition classify_text (response_str : text) (result : response_dict) : response_dict :=
  if contains (of_string "ACK") response_str then
    set_status "ack" result
  else if contains (of_string "NAK") response_str then
    set_error (Some (of_string "Device NAK response")) (set_status "nak" result)
  else if contains (of_string "ERROR") response_str
          || contains (of_string "error") response_str then
    let result := set_status "error" result in
    match search_value response_str with
    | Some g => set_error (Some g) result
    | None => result
    end
  else if contains (of_string "<log ") response_str then
    set_status "log" result
  else result.

(** [parse_response]. On a [bytes] argument nothing in the body raises
    (the decoding ignores errors), so the [parse_error] handler is not
    reached and the function is total. *)
Definition parse_response (response : list byte) : response_dict :=
  let response_str := utf8_decode_ignore response in
  let result :=
    {| raw := Fmt.bytes_hex response; text_ := response_str;
       status := "unknown"; error := None; data := None |} in
  let result := classify_text response_str result in
  (* the check of the first byte comes last and overwrites *)
  match firstn 1 response with
  | [b] =>
    if Byte.eqb b x04 then
      set_error
        (Some (of_string "Device returned error code 0x04 (Non-standard response)"))
        (set_status "error_code_0x04" result)
    else result
  | _ => result
  end.

End FirehoseXMLHandler.

(** ** Effects shared by the stateful components *)

(** What the program does to the outside world, in order. *)
Inductive io_event :=
| Sleep (ms : Z)                 (* [time.sleep] *)
| UsbWrite (address : Z)         (* [device.write] of the peek command *)
| UsbRead                        (* [device.read] *)
| EdlRun (address : Z)           (* [subprocess.run] of the helper *)
| Append (line : string).        (* a line appended to the results file *)

(** ** Error-recovery policy: [USBErrorRecovery] *)

Module USBErrorRecovery.

Inductive action_kind := skip_to_next_block | retry | skip_address.

(** The recovery action dictionary; [skip_size] and [delay_ms] are the
    keys that only some of the actions carry. *)
Record action := {
  action_ : action_kind;
  next_address : Z;
  skip_size : option Z;
  delay_ms : option Z;
  reason : string
}.

Record error_record := {
  err_address : Z;
  err_code : Z;
  err_count : Z;
  err_timestamp : string
}.

Record skip_region := {
  start : Z;
  end_ : Z;
  region_reason : string
}.

Record t := {
  error_threshold : Z;
  error_count : Z;
  last_error : option error_record;
  last_good_address : option Z;
  skip_regions : list skip_region
}.

(** [__init__] *)
Definition init : t :=
  {| error_threshold := 5; error_count := 0; last_error := None;
     last_good_address := None; skip_regions := [] |}.

Definition set_error_count (n : Z) (self : t) : t :=
  {| error_threshold := error_threshold self; error_count := n;
     last_error := last_error self; last_good_address := last_good_address self;
     skip_regions := skip_regions self |}.

Definition set_last_error (e : error_record) (self : t) : t :=
  {| error_threshold := error_threshold self; error_count := error_count self;
     last_error := Some e; last_good_address := last_good_address self;
     skip_regions := skip_regions self |}.

Definition append_skip_region (r : skip_region) (self : t) : t :=
  {| error_threshold := error_threshold self; error_count := error_count self;
     last_error := last_error self; last_good_address := last_good_address self;
     skip_regions := (skip_regions self ++ [r])%list |}.

(** The tail of [handle_error] (Default: skip this address and
    continue). *)
Definition default_skip (address : Z) (self : t) : action * t :=
  let self := if 3 <=? error_count self then set_error_count 0 self else self in
  ({| action_ := skip_address; next_address := address + 4;
      skip_size := Some 4; delay_ms := None; reason := "graceful_skip" |}, self).

(** [handle_error]: the events it causes, the action it returns and the
    object afterwards. [now] is [datetime.now().isoformat()]. *)
Definition handle_error (now : string) (address error_code : Z)
    (response_data : option (list byte)) (self : t) : list io_event * action * t :=
  let self := set_error_count (error_count self + 1) self in
  let self :=
    set_last_error {| err_address := address; err_code := error_code;
                      err_count := error_count self; err_timestamp := now |} self in
  if error_code =? 0x04 then
    if error_threshold self <=? error_count self then
      let next_addr := ((address + 0x1000) / 0x1000) * 0x1000 in
      let self :=
        append_skip_region
          {| start := address; end_ := next_addr; region_reason := "0x04_errors" |}
          self in
      ([], {| action_ := skip_to_next_block; next_address := next_addr;
              skip_size := Some 0x1000; delay_ms := None;
              reason := "error_code_0x04" |}, self)
    else
      let '(a, self) := default_skip address self in ([], a, self)
  else if error_code =? 0xff then
    if error_count self <? 3 then
      ([Sleep 2000],
       {| action_ := retry; next_address := address; skip_size := None;
          delay_ms := Some 2000; reason := "timeout_recovery" |}, self)
    else
      let '(a, self) := default_skip address self in ([Sleep 2000], a, self)
  else
    let '(a, self) := default_skip address self in ([], a, self).

(** [reset_error_count] *)
Definition reset_error_count (self : t) : t := set_error_count 0 self.

(** The object after the first two statements of [handle_error] (the
    increment and [last_error]), which is what it is while the cooldown
    of the timeout branch is sleeping. *)
Definition record_error (now : string) (address error_code : Z) (self : t) : t :=
  let self := set_error_count (error_count self + 1) self in
  set_last_error {| err_address := address; err_code := error_code;
                    err_count := error_count self; err_timestamp := now |} self.

(** The line feed character. *)
Definition nl : string := String "010"%char EmptyString.

(** One line of the report:
    [f"  0x{start:08x} - 0x{end:08x} ({reason})\n"]. *)
Definition report_line (region : skip_region) : string :=
  "  " ++ Fmt.addr08 (start region) ++ " - " ++ Fmt.addr08 (end_ region)
  ++ " (" ++ region_reason region ++ ")" ++ nl.

(** [get_skip_report] *)
Definition get_skip_report (self : t) : string :=
  match skip_regions self with
  | [] => "No regions skipped."
  | regions =>
    fold_left (fun report region => report ++ report_line region) regions
              ("Skipped Regions:" ++ nl)
  end.

End USBErrorRecovery.

(** ** Diagnostics collector: [SLAResponseLogger] *)

Module SLAResponseLogger.

(** An entry of [responses]. The keys [data_hex], [data_size] and
    [data_ascii] of the source entry are all computed from the logged
    bytes, which is what the record keeps. *)
Record response_entry := {
  r_timestamp : string;
  r_source : string;
  r_type : string;
  r_status : string;
  r_data : list byte
}.

Definition data_hex (e : response_entry) : string := Fmt.bytes_hex (r_data e).
Definition data_size (e : response_entry) : Z := Z.of_nat (length (r_data e)).

Record challenge_entry := {
  c_timestamp : string;
  c_challenge : list byte
}.

Record loader_entry := {
  l_timestamp : string;
  l_loader : string;
  l_response : string;
  l_success : bool
}.

(** The [context] dictionary of an error entry: a recovery action, or
    plain string fields ([[]] is the empty dictionary). *)
Inductive context :=
| CtxAction (a : USBErrorRecovery.action)
| CtxFields (fields : list (string * string)).

Record error_entry := {
  e_timestamp : string;
  e_type : string;
  e_message : string;
  e_context : context
}.

Record t := {
  log_file : string;
  responses : list response_entry;
  sla_challenges : list challenge_entry;
  loader_responses : list loader_entry;
  errors : list error_entry
}.

(** [__init__]; [log_file or "sla_response_log.json"]. *)
Definition init (log_file : option string) : t :=
  {| log_file := match log_file with
                 | Some (String _ _ as f) => f
                 | _ => "sla_response_log.json"
                 end;
     responses := []; sla_challenges := []; loader_responses := []; errors := [] |}.

Definition log_response (timestamp source response_type : string)
    (data : list byte) (status : string) (self : t) : t :=
  {| log_file := log_file self;
     responses := (responses self ++
                   [{| r_timestamp := timestamp; r_source := source;
                       r_type := response_type; r_status := status;
                       r_data := data |}])%list;
     sla_challenges := sla_challenges self;
     loader_responses := loader_responses self;
     errors := errors self |}.

Definition log_loader_response (timestamp loader_name response : string)
    (success : bool) (self : t) : t :=
  {| log_file := log_file self;
     responses := responses self;
     sla_challenges := sla_challenges self;
     loader_responses := (loader_responses self ++
                          [{| l_timestamp := timestamp; l_loader := loader_name;
                              l_response := response; l_success := success |}])%list;
     errors := errors self |}.

(** [log_error]; [context or {}]. *)
Definition log_error (timestamp error_type error_msg : string)
    (ctx : option context) (self : t) : t :=
  {| log_file := log_file self;
     responses := responses self;
     sla_challenges := sla_challenges self;
     loader_responses := loader_responses self;
     errors := (errors self ++
                [{| e_timestamp := timestamp; e_type := error_type;
                    e_message := error_msg;
                    e_context := match ctx with
                                 | Some c => c
                                 | None => CtxFields []
                                 end |}])%list |}.

(** The slice [l[-n:]] for a positive [n]. *)
Definition last_n {A} (n : nat) (l : list A) : list A :=
  skipn (length l - n) l.

(** The values the diagnostics dictionary holds. *)
Inductive value :=
| VStr (s : string)
| VInt (n : Z)
| VResponses (l : list response_entry)
| VChallenges (l : list challenge_entry)
| VLoaders (l : list loader_entry)
| VErrors (l : list error_entry).

(** A dictionary display [{k1: v1, k2: v2, ...}]: the items are
    inserted from left to right, so a key written twice keeps the value
    written last. *)
Definition dict_display (items : list (string * value)) : gmap string value :=
  fold_left (fun d kv => <[fst kv := snd kv]> d) items ∅.

(** The dictionary [diagnostics] built by [save_diagnostics]; [now] is
    [datetime.now().isoformat()]. *)
Definition diagnostics (now : string) (self : t) : gmap string value :=
  dict_display
    [ ("timestamp", VStr now);
      ("total_responses", VInt (Z.of_nat (length (responses self))));
      ("sla_challenges_count", VInt (Z.of_nat (length (sla_challenges self))));
      ("loader_responses", VInt (Z.of_nat (length (loader_responses self))));
      ("errors_count", VInt (Z.of_nat (length (errors self))));
      ("responses", VResponses (last_n 100 (responses self)));
      ("sla_challenges", VChallenges (sla_challenges self));
      ("loader_responses", VLoaders (loader_responses self));
      ("errors", VErrors (last_n 50 (errors self))) ].

(** [save_diagnostics]: the document written to [log_file] (when the
    write succeeds) and the returned path. *)
Definition save_diagnostics (now : string) (write_ok : bool) (self : t)
    : option (gmap string value) * option string :=
  let d := diagnostics now self in
  if write_ok then (Some d, Some (log_file self)) else (None, None).

(** [sum(1 for r in self.loader_responses if r['success'])] *)
Definition successes (self : t) : Z :=
  Z.of_nat (length (List.filter (fun r => l_success r) (loader_responses self))).

(** True division of integers; [None] is [ZeroDivisionError]. The float
    quotient is represented by the exact rational. *)
Definition true_div (a b : Z) : option Q :=
  if b =? 0 then None else Some (inject_Z a / inject_Z b)%Q.

(** The number formatted after "Loader Success Rate:" in
    [get_connection_summary]. *)
Definition loader_success_rate (self : t) : option Q :=
  match true_div (successes self)
                 (Z.max (Z.of_nat (length (loader_responses self))) 1) with
  | Some q => Some (q * inject_Z 100)%Q
  | None => None
  end.

(** The fields interpolated into the summary text. *)
Record summary := {
  s_total_responses : Z;
  s_sla_challenges : Z;
  s_loader_responses : Z;
  s_errors : Z;
  s_last_response : string;
  s_last_error : string;
  s_success_rate : Q
}.

(** [get_connection_summary]; [None] when building the text raises. *)
Definition get_connection_summary (self : t) : option summary :=
  match loader_success_rate self with
  | None => None
  | Some rate =>
    Some {| s_total_responses := Z.of_nat (length (responses self));
            s_sla_challenges := Z.of_nat (length (sla_challenges self));
            s_loader_responses := Z.of_nat (length (loader_responses self));
            s_errors := Z.of_nat (length (errors self));
            s_last_response := match last (responses self) with
                               | Some r => r_timestamp r
                               | None => "None"
                               end;
            s_last_error := match last (errors self) with
                            | Some e => e_type e
                            | None => "None"
                            end;
            s_success_rate := rate |}
  end.

End SLAResponseLogger.

(** ** Exceptions and the outside world *)

Inductive exn :=
| KeyboardInterrupt
| USBTimeoutError
| ZeroDivisionError
| OtherException (msg : string).

(** [isinstance(e, Exception)]: [KeyboardInterrupt] derives from
    [BaseException] only. *)
Definition is_Exception (e : exn) : bool :=
  match e with
  | KeyboardInterrupt => false
  | _ => true
  end.

Definition is_USBTimeoutError (e : exn) : bool :=
  match e with
  | USBTimeoutError => true
  | _ => false
  end.

(** [str(e)] *)
Definition exn_str (e : exn) : string :=
  match e with
  | KeyboardInterrupt => EmptyString
  | USBTimeoutError => "Operation timed out"
  | ZeroDivisionError => "division by zero"
  | OtherException msg => msg
  end.

Inductive outcome (A : Type) :=
| Ret (a : A)
| Raise (e : exn).
Arguments Ret {A} a.
Arguments Raise {A} e.

(** What the device does when it is peeked over USB. *)
Inductive usb_behaviour :=
| UsbWriteRaises (msg : string)     (* [device.write] raises *)
| UsbReadTimeout                    (* [device.read] raises [USBTimeoutError] *)
| UsbReadRaises (msg : string)      (* [device.read] raises something else *)
| UsbResponds (response : list byte)
| UsbInterrupted.                   (* the user interrupts during [device.read] *)

(** What the external helper does when it is run. *)
Inductive edl_behaviour :=
| EdlRaises (msg : string)          (* [subprocess.run] raises (timeout, ...) *)
| EdlExits (returncode : Z) (output : option (list byte))
                                    (* exit code; the temp file, if it exists *)
| EdlInterrupted.                   (* the user interrupts during the run *)

(** What happens when a line is appended to the results file. *)
Inductive disk_behaviour :=
| DiskOk
| DiskRaises (msg : string)
| DiskInterrupted.

(** What happens when a line is printed on the console. *)
Inductive console_behaviour :=
| ConsoleOk
| ConsoleRaises (msg : string)      (* [print] raises (encoding, broken pipe) *)
| ConsoleInterrupted.               (* the user interrupts during the output *)

(** The calls of [time.sleep] on the way of one read: the 10 ms delay
    after the peek command, the 2 s cooldown of the recovery policy, and
    the 10 ms delay after the run of the helper. *)
Inductive nap_site :=
| PeekDelay
| Cooldown
| HelperDelay.

Definition nap_site_eqb (a b : nap_site) : bool :=
  match a, b with
  | PeekDelay, PeekDelay | Cooldown, Cooldown | HelperDelay, HelperDelay => true
  | _, _ => false
  end.

(** The outside world during one iteration of the sweep. *)
Record probe := {
  clock : string;                   (* [datetime.now().isoformat()] *)
  usb : usb_behaviour;
  edl : edl_behaviour;
  disk : disk_behaviour;
  console : console_behaviour;      (* the line printed for a non-zero read *)
  ticker : console_behaviour;       (* the progress line *)
  naps : option nap_site            (* the sleep that the user interrupts *)
}.

(** The console around the loop of one sweep: during the banner printed
    before the [try], during the summary printed after the loop, and
    during the message printed by each of the two [except] clauses. *)
Record scan_console := {
  banner : console_behaviour;
  summary : console_behaviour;
  on_interrupt : console_behaviour;
  on_error : console_behaviour
}.

(** ** Scan controller and transport: [QFPROMExtractor] *)

Module QFPROMExtractor.

Definition FIREHOSE_BULK_IN_EP : Z := 0x81.
Definition FIREHOSE_BULK_OUT_EP : Z := 0x01.
Definition PEEK_COMMAND_DELAY_ms : Z := 10.
Definition DEFAULT_STEP : Z := 4.
Definition NULL_PATTERN : list byte := [x00; x00; x00; x00].

Record t := {
  edl_binary : option string;
  loader : option string;
  device : bool;                    (* a device handle was found *)
  use_pyusb : bool;
  log_file : string;
  scan_results : gmap Z string;
  enable_diagnostics : bool;
  sla_logger : option SLAResponseLogger.t;
  error_recovery : USBErrorRecovery.t
}.

(** The object together with the history of what it did: the I/O it
    attempted, and every call of [_read_single_address] with how it
    ended. *)
Record world := {
  self : t;
  io : list io_event;
  reads : list (Z * outcome (option (list byte)))
}.

Definition set_scan_results (r : gmap Z string) (s : t) : t :=
  {| edl_binary := edl_binary s; loader := loader s; device := device s;
     use_pyusb := use_pyusb s; log_file := log_file s; scan_results := r;
     enable_diagnostics := enable_diagnostics s; sla_logger := sla_logger s;
     error_recovery := error_recovery s |}.

Definition set_sla_logger (l : option SLAResponseLogger.t) (s : t) : t :=
  {| edl_binary := edl_binary s; loader := loader s; device := device s;
     use_pyusb := use_pyusb s; log_file := log_file s;
     scan_results := scan_results s;
     enable_diagnostics := enable_diagnostics s; sla_logger := l;
     error_recovery := error_recovery s |}.

Definition set_error_recovery (r : USBErrorRecovery.t) (s : t) : t :=
  {| edl_binary := edl_binary s; loader := loader s; device := device s;
     use_pyusb := use_pyusb s; log_file := log_file s;
     scan_results := scan_results s;
     enable_diagnostics := enable_diagnostics s; sla_logger := sla_logger s;
     error_recovery := r |}.

(** Truth value of an optional path: [None] and the empty string are
    false. *)
Definition truthy (s : option string) : bool :=
  match s with
  | Some (String _ _) => true
  | _ => false
  end.

(** *** The monad of the methods: state, history and exceptions *)

Definition M (A : Type) : Type := world -> outcome A * world.

#[export] Instance M_ret : MRet M := fun A a w => (Ret a, w).

#[export] Instance M_bind : MBind M := fun A B k m w =>
  match m w with
  | (Ret a, w') => k a w'
  | (Raise e, w') => (Raise e, w')
  end.

Definition raise {A} (e : exn) : M A := fun w => (Raise e, w).

Definition get_self : M t := fun w => (Ret (self w), w).

Definition modify_self (f : t -> t) : M unit :=
  fun w => (Ret tt, {| self := f (self w); io := io w; reads := reads w |}).

Definition emit (evs : list io_event) : M unit :=
  fun w => (Ret tt, {| self := self w; io := (io w ++ evs)%list; reads := reads w |}).

(** [try: body except <handles>: handler] *)
Definition try_except {A} (body : M A) (handles : exn -> bool)
    (handler : exn -> M A) : M A :=
  fun w =>
    match body w with
    | (Raise e, w') => if handles e then handler e w' else (Raise e, w')
    | r => r
    end.

(** Ghost: after [m], note in [reads] how the read at [address] ended. *)
Definition noting (address : Z) (m : M (option (list byte))) : M (option (list byte)) :=
  fun w =>
    let '(o, w') := m w in
    (o, {| self := self w'; io := io w'; reads := (reads w' ++ [(address, o)])%list |}).

(** *** Primitive interactions *)

(** [time.sleep]: the sleep starts, and raises when the user interrupts
    it. *)
Definition nap (interrupted : bool) (ms : Z) : M unit :=
  emit [Sleep ms];;
  if interrupted then raise KeyboardInterrupt else mret tt.

Definition interrupts (p : probe) (site : nap_site) : bool :=
  match naps p with
  | Some s => nap_site_eqb s site
  | None => false
  end.

(** [time.sleep(self.PEEK_COMMAND_DELAY)] *)
Definition sleep (p : probe) (site : nap_site) (ms : Z) : M unit :=
  nap (interrupts p site) ms.

(** [print(...)]; the text is not represented, only whether printing
    succeeds. *)
Definition console_out (c : console_behaviour) : M unit :=
  match c with
  | ConsoleOk => mret tt
  | ConsoleRaises msg => raise (OtherException msg)
  | ConsoleInterrupted => raise KeyboardInterrupt
  end.

(** The events of a call of the recovery policy, one after the other;
    its sleeps are the cooldown. *)
Fixpoint cooldowns (p : probe) (evs : list io_event) : M unit :=
  match evs with
  | [] => mret tt
  | Sleep ms :: rest => nap (interrupts p Cooldown) ms;; cooldowns p rest
  | e :: rest => emit [e];; cooldowns p rest
  end.

Definition device_write (p : probe) (address : Z) : M unit :=
  emit [UsbWrite address];;
  match usb p with
  | UsbWriteRaises msg => raise (OtherException msg)
  | _ => mret tt
  end.

(** [device.read(ep, 512, timeout=...)]: at most 512 bytes. *)
Definition device_read (p : probe) : M (list byte) :=
  emit [UsbRead];;
  match usb p with
  | UsbResponds response => mret (firstn 512 response)
  | UsbReadTimeout => raise USBTimeoutError
  | UsbReadRaises msg => raise (OtherException msg)
  | UsbWriteRaises msg => raise (OtherException msg)
  | UsbInterrupted => raise KeyboardInterrupt
  end.

(** [subprocess.run(cmd, capture_output=True, timeout=10)] followed by
    the look at the temp file. *)
Definition subprocess_run (p : probe) (address : Z) : M (Z * option (list byte)) :=
  emit [EdlRun address];;
  match edl p with
  | EdlExits returncode output => mret (returncode, output)
  | EdlRaises msg => raise (OtherException msg)
  | EdlInterrupted => raise KeyboardInterrupt
  end.

(** [with open(self.log_file, 'a') as f: f.write(...)] *)
Definition file_append (p : probe) (line : string) : M unit :=
  match disk p with
  | DiskOk => emit [Append line]
  | DiskRaises msg => raise (OtherException msg)
  | DiskInterrupted => raise KeyboardInterrupt
  end.

(** [if self.enable_diagnostics and self.sla_logger: self.sla_logger.f(...)] *)
Definition diag (f : SLAResponseLogger.t -> SLAResponseLogger.t) : M unit :=
  modify_self (fun s =>
    match sla_logger s with
    | Some l => if enable_diagnostics s then set_sla_logger (Some (f l)) s else s
    | None => s
    end).

(** [self.error_recovery.handle_error(address, code, response)]: the
    error is recorded first, the cooldown (if any) sleeps, and only a
    call that returns leaves the object in its final state. *)
Definition handle_error (p : probe) (address error_code : Z)
    (response_data : option (list byte)) : M USBErrorRecovery.action :=
  s ← get_self;
  let '(evs, a, r) :=
    USBErrorRecovery.handle_error (clock p) address error_code response_data
                                  (error_recovery s) in
  modify_self (set_error_recovery
                 (USBErrorRecovery.record_error (clock p) address error_code
                    (error_recovery s)));;
  cooldowns p evs;;
  modify_self (set_error_recovery r);;
  mret a.

Definition reset_error_count : M unit :=
  modify_self (fun s =>
    set_error_recovery (USBErrorRecovery.reset_error_count (error_recovery s)) s).

(** *** The two channels *)

(** [_read_memory_pyusb] *)
Definition _read_memory_pyusb (p : probe) (address : Z) : M (option (list byte)) :=
  s ← get_self;
  if negb (device s) || negb (use_pyusb s) then mret None
  else
    try_except
      (device_write p address;;
       sleep p PeekDelay PEEK_COMMAND_DELAY_ms;;
       try_except
         (response_bytes ← device_read p;
          diag (SLAResponseLogger.log_response (clock p) "pyusb" "peek_response"
                  (firstn 16 response_bytes) "OK");;
          if match response_bytes with
             | b :: _ => Byte.eqb b x04
             | [] => false
             end
          then
            recovery_action ← handle_error p address 0x04 (Some response_bytes);
            diag (SLAResponseLogger.log_error (clock p) "usb_error_0x04"
                    ("Non-standard response at " ++ Fmt.addr08 address)
                    (Some (SLAResponseLogger.CtxAction recovery_action)));;
            mret None
          else
            reset_error_count;;
            mret (if (4 <=? length response_bytes)%nat
                  then Some (firstn 4 response_bytes) else None))
         is_USBTimeoutError
         (fun _ =>
            recovery_action ← handle_error p address 0xff None;
            diag (SLAResponseLogger.log_error (clock p) "usb_timeout"
                    ("Read timeout at " ++ Fmt.addr08 address)
                    (Some (SLAResponseLogger.CtxAction recovery_action)));;
            mret None))
      is_Exception
      (fun e =>
         diag (SLAResponseLogger.log_error (clock p) "usb_exception" (exn_str e)
                 (Some (SLAResponseLogger.CtxFields
                          [("address", Fmt.addr08 address)])));;
         mret None).

(** [_read_memory_fallback] *)
Definition _read_memory_fallback (p : probe) (address : Z) : M (option (list byte)) :=
  s ← get_self;
  if negb (truthy (edl_binary s)) || negb (truthy (loader s)) then mret None
  else
    try_except
      (result ← subprocess_run p address;
       sleep p HelperDelay PEEK_COMMAND_DELAY_ms;;
       match result with
       | (0, Some contents) =>
         let data := firstn 4 contents in
         mret (if (length data =? 4)%nat then Some data else None)
       | _ => mret None
       end)
      is_Exception
      (fun _ => mret None).

(** [_read_single_address] *)
Definition _read_single_address (p : probe) (address : Z) : M (option (list byte)) :=
  noting address
    (s ← get_self;
     if use_pyusb s && device s then
       data ← _read_memory_pyusb p address;
       match data with
       | Some d => mret (Some d)
       | None => _read_memory_fallback p address
       end
     else _read_memory_fallback p address).

(** *** The sweep *)

(** [a == b] on [bytes]. *)
Fixpoint bytes_eqb (a b : list byte) : bool :=
  match a, b with
  | [], [] => true
  | x :: a', y :: b' => Byte.eqb x y && bytes_eqb a' b'
  | _, _ => false
  end.

(** The branch of the loop body that stores a non-zero read. *)
Definition store_discovery (p : probe) (current_addr : Z) (data : list byte) : M unit :=
  let hex_value := Fmt.hex_join data in
  let log_msg := Fmt.addr08 current_addr ++ ": " ++ hex_value in
  modify_self (fun s => set_scan_results (<[current_addr := hex_value]> (scan_results s)) s);;
  console_out (console p);;
  file_append p log_msg.

(** The progress indicator: [reads_completed / total_reads] is a true
    division, which raises when [total_reads] is zero; then the line is
    printed. *)
Definition progress (p : probe) (reads_completed total_reads : Z) : M unit :=
  if reads_completed mod 256 =? 0 then
    if total_reads =? 0 then raise ZeroDivisionError else console_out (ticker p)
  else mret tt.

(** One pass through the body of the [while] loop, after
    [reads_completed] was incremented. The calls of [logging], which
    handles the errors of its own output, are not represented, nor
    [non_zero_count], which only feeds the messages. *)
Definition scan_iteration (p : probe) (total_reads current_addr reads_completed : Z)
    : M unit :=
  data ← _read_single_address p current_addr;
  match data with
  | None => mret tt
  | Some d =>
    if (length d <? 4)%nat then mret tt
    else if negb (bytes_eqb d NULL_PATTERN) then store_discovery p current_addr d
    else mret tt
  end;;
  progress p reads_completed total_reads.

(** [while current_addr < end_addr: ...]; [env n] is the outside world
    during the [n]-th read. The loop leaves at most [fuel] times through
    its body. *)
Fixpoint scan_loop (fuel : nat) (env : Z -> probe)
    (end_addr step total_reads current_addr reads_completed : Z) : M unit :=
  match fuel with
  | O => mret tt
  | S fuel' =>
    if current_addr <? end_addr then
      let reads_completed := reads_completed + 1 in
      scan_iteration (env reads_completed) total_reads current_addr reads_completed;;
      scan_loop fuel' env end_addr step total_reads (current_addr + step)
                reads_completed
    else mret tt
  end.

(** [scan_memory]. With [step >= 1] the distance to [end_addr] shrinks
    by at least one per pass, so [end_addr - start_addr] passes are
    enough. The banner is printed before the [try]; the summary inside
    it; each [except] clause prints a message and returns the results. *)
Definition scan_memory (con : scan_console) (env : Z -> probe)
    (start_addr end_addr step : Z) : M (gmap Z string) :=
  let step := if step <? 1 then 4 else step in
  modify_self (set_scan_results ∅);;
  let total_reads := (end_addr - start_addr) / step in
  console_out (banner con);;
  try_except
    (scan_loop (Z.to_nat (end_addr - start_addr)) env end_addr step total_reads
               start_addr 0;;
     console_out (summary con);;
     s ← get_self; mret (scan_results s))
    (fun e => match e with
              | KeyboardInterrupt => true
              | _ => is_Exception e
              end)
    (fun e =>
       console_out (match e with
                    | KeyboardInterrupt => on_interrupt con
                    | _ => on_error con
                    end);;
       s ← get_self; mret (scan_results s)).

(** [__init__], for a machine on which pyusb found (or did not find) the
    device. *)
Definition init (edl_binary loader : option string) (found : bool) : t :=
  {| edl_binary := edl_binary; loader := loader; device := found;
     use_pyusb := found; log_file := "memory_scan.log"; scan_results := ∅;
     enable_diagnostics := true;
     sla_logger := Some (SLAResponseLogger.init None);
     error_recovery := USBErrorRecovery.init |}.

Definition fresh (s : t) : world := {| self := s; io := []; reads := [] |}.

End QFPROMExtractor.

(** * Specification-side definitions

    The definitions below are not taken from the source: they phrase
    what the design document says, for comparison with the definitions
    above. *)

Module Spec.
Import Text.

(** The classification rules of the command codec as a priority list:
    a test on the raw response and the status it gives. *)
Definition has (marker : string) (response : list byte) : bool :=
  contains (of_string marker) (utf8_decode_ignore response).

Definition first_byte_is (b : byte) (response : list byte) : bool :=
  match response with
  | b0 :: _ => Byte.eqb b0 b
  | [] => false
  end.

Definition rules : list ((list byte -> bool) * string) :=
  [ (first_byte_is x04, "error_code_0x04");
    (has "ACK", "ack");
    (has "NAK", "nak");
    (fun r => has "ERROR" r || has "error" r, "error");
    (has "<log ", "log") ].

(** The status of the first rule that applies, top to bottom. *)
Fixpoint first_match (rs : list ((list byte -> bool) * string))
    (response : list byte) (default : string) : string :=
  match rs with
  | [] => default
  | (test, st) :: rs' => if test response then st else first_match rs' response default
  end.

(** A sequence of calls on one Error-Recovery Policy instance. *)
Inductive call :=
| HandleError (now : string) (address error_code : Z) (response_data : option (list byte))
| ResetErrorCount.

(** Running the calls in order: the actions returned by the
    [handle_error] calls and the final state. *)
Fixpoint run (calls : list call) (st : USBErrorRecovery.t)
    : list USBErrorRecovery.action * USBErrorRecovery.t :=
  match calls with
  | [] => ([], st)
  | HandleError now address code resp :: rest =>
    let '(_, a, st') := USBErrorRecovery.handle_error now address code resp st in
    let '(acts, st'') := run rest st' in
    (a :: acts, st'')
  | ResetErrorCount :: rest => run rest (USBErrorRecovery.reset_error_count st)
  end.

(** The counter values after each call of the sequence. *)
Fixpoint counts (calls : list call) (st : USBErrorRecovery.t) : list Z :=
  match calls with
  | [] => []
  | c :: rest =>
    let st' := snd (run [c] st) in
    USBErrorRecovery.error_count st' :: counts rest st'
  end.

(** The loader-launch success rate as the design document gives it:
    successes over [max(attempts, 1)], as a percentage. *)
Fixpoint successful (rs : list SLAResponseLogger.loader_entry) : Z :=
  match rs with
  | [] => 0
  | r :: rest => (if SLAResponseLogger.l_success r then 1 else 0) + successful rest
  end.

Definition rate (rs : list SLAResponseLogger.loader_entry) : Q :=
  (inject_Z (successful rs) / inject_Z (Z.max (Z.of_nat (length rs)) 1)
   * inject_Z 100)%Q.

(** The invariant of a policy object that started fresh. *)
Definition low_count (st : USBErrorRecovery.t) : Prop :=
  USBErrorRecovery.error_threshold st = 5
  /\ 0 <= USBErrorRecovery.error_count st <= 2
  /\ USBErrorRecovery.skip_regions st = [].

(** What is left of the invariant when the user interrupts the cooldown
    of a timeout: the counter was incremented and not yet reset. *)
Definition mid_recovery (st : USBErrorRecovery.t) : Prop :=
  USBErrorRecovery.error_threshold st = 5
  /\ 0 <= USBErrorRecovery.error_count st <= 3
  /\ USBErrorRecovery.skip_regions st = [].

(** What a step leaves of the invariant of the policy: the weaker
    invariant always, the invariant itself when the cooldown was not
    interrupted and when the step returned. *)
Definition keeps_recovery {A} (undisturbed : Prop) (o : outcome A)
    (st st' : USBErrorRecovery.t) : Prop :=
  low_count st ->
  mid_recovery st'
  /\ (undisturbed -> low_count st')
  /\ (forall x, o = Ret x -> low_count st').

(** The calls of [handle_error] that end in its default branch: [0x04]
    below the threshold, [0xFF] at or above three in a row, or any other
    code. The counts are the ones after the increment. *)
Definition takes_default (error_code : Z) (st : USBErrorRecovery.t) : Prop :=
  (error_code = 0x04 /\
   USBErrorRecovery.error_count st + 1 < USBErrorRecovery.error_threshold st)
  \/ (error_code = 0xff /\ 3 <= USBErrorRecovery.error_count st + 1)
  \/ (error_code <> 0x04 /\ error_code <> 0xff).

(** The recovery actions that a run left in the diagnostics log. *)
Definition logged_actions (w : QFPROMExtractor.world) : list USBErrorRecovery.action :=
  match QFPROMExtractor.sla_logger (QFPROMExtractor.self w) with
  | None => []
  | Some l =>
    flat_map (fun e => match SLAResponseLogger.e_context e with
                       | SLAResponseLogger.CtxAction a => [a]
                       | _ => []
                       end) (SLAResponseLogger.errors l)
  end.

(** [read4]: what each channel yields, and their combination. *)
Definition native_available (s : QFPROMExtractor.t) : bool :=
  QFPROMExtractor.use_pyusb s && QFPROMExtractor.device s.

Definition secondary_configured (s : QFPROMExtractor.t) : bool :=
  QFPROMExtractor.truthy (QFPROMExtractor.edl_binary s)
  && QFPROMExtractor.truthy (QFPROMExtractor.loader s).

(** The native channel succeeds when the device answers at least four
    bytes that do not start with [0x04]; a timeout, an exception, a short
    answer and an answer classified as [error_code_0x04] are failures. *)
Definition native (s : QFPROMExtractor.t) (p : probe) : option (list byte) :=
  if native_available s then
    match usb p with
    | UsbResponds response =>
      if first_byte_is x04 response then None
      else if (4 <=? length response)%nat then Some (firstn 4 response)
      else None
    | _ => None
    end
  else None.

(** The secondary channel succeeds when the helper exits with code 0
    and leaves a file of at least four bytes. *)
Definition secondary (s : QFPROMExtractor.t) (p : probe) : option (list byte) :=
  if secondary_configured s then
    match edl p with
    | EdlExits 0 (Some contents) =>
      if (4 <=? length contents)%nat then Some (firstn 4 contents) else None
    | _ => None
    end
  else None.

Definition read4 (s : QFPROMExtractor.t) (p : probe) : option (list byte) :=
  match native s p with
  | Some d => Some d
  | None => secondary s p
  end.

(** The addresses [start, start + step, ...], [n] of them. *)
Fixpoint sweep (n : nat) (start step : Z) : list Z :=
  match n with
  | O => []
  | S n' => start :: sweep n' (start + step) step
  end.

(** A read that is stored: at least four bytes, not the all-zero
    pattern. *)
Definition stored (d : list byte) : Prop :=
  (4 <= length d)%nat /\ d <> QFPROMExtractor.NULL_PATTERN.

Definition storedb (d : list byte) : bool :=
  negb (length d <? 4)%nat && negb (QFPROMExtractor.bytes_eqb d QFPROMExtractor.NULL_PATTERN).

(** The dictionary after one more read. *)
Definition note (address : Z) (r : outcome (option (list byte)))
    (m : gmap Z string) : gmap Z string :=
  match r with
  | Ret (Some d) => if storedb d then <[address := Fmt.hex_join d]> m else m
  | _ => m
  end.

(** The discoveries of a history of reads. *)
Definition discoveries (new : list (Z * outcome (option (list byte))))
    (m : gmap Z string) : gmap Z string :=
  fold_left (fun m ar => note (fst ar) (snd ar) m) new m.

(** Nothing interrupts the iteration, and the console and the results
    file can be written. *)
Definition quiet (p : probe) : Prop :=
  usb p <> UsbInterrupted /\ edl p <> EdlInterrupted /\ disk p = DiskOk
  /\ console p = ConsoleOk /\ ticker p = ConsoleOk /\ naps p = None.

(** The progress line is due after read number [n] and cannot be
    printed. *)
Definition ticker_fails (p : probe) (n : Z) : Prop :=
  n mod 256 = 0 /\ ticker p <> ConsoleOk.

(** When the sweep can end early after read number [n]: the read was
    interrupted, or it was stored and printing or appending its line
    failed, or the progress line failed. *)
Definition may_stop (p : probe) (n : Z) (r : outcome (option (list byte))) : Prop :=
  match r with
  | Raise _ => True
  | Ret (Some d) =>
    (stored d /\ (console p <> ConsoleOk \/ disk p <> DiskOk)) \/ ticker_fails p n
  | Ret None => ticker_fails p n
  end.

(** The shape of the history of one sweep from [cur], whose next read is
    read number [n + 1]: consecutive addresses below [end_addr]; every
    read but the last returned; the sweep is [completed] when it ran out
    of addresses. *)
Fixpoint sweep_trace (env : Z -> probe) (end_addr step cur n : Z)
    (new : list (Z * outcome (option (list byte)))) (completed : bool) : Prop :=
  match new with
  | [] => end_addr <= cur /\ completed = true
  | (a, r) :: rest =>
    a = cur /\ cur < end_addr /\
    (((exists x, r = Ret x)
      /\ sweep_trace env end_addr step (cur + step) (n + 1) rest completed)
     \/ (rest = [] /\ completed = false /\ may_stop (env (n + 1)) (n + 1) r))
  end.

(** The progress indicator does not divide by zero. *)
Definition progress_ok (reads_completed total_reads : Z) : Prop :=
  reads_completed mod 256 = 0 -> total_reads <> 0.

(** What a channel leaves untouched in the object. *)
Definition frame (s' s : QFPROMExtractor.t) : Prop :=
  QFPROMExtractor.scan_results s' = QFPROMExtractor.scan_results s
  /\ QFPROMExtractor.edl_binary s' = QFPROMExtractor.edl_binary s
  /\ QFPROMExtractor.loader s' = QFPROMExtractor.loader s.

End Spec.

(** Concrete scanners and devices used as test inputs. *)
Module Example.

Definition answers (u : usb_behaviour) : probe :=
  {| clock := "2024-01-01T00:00:00"; usb := u; edl := EdlRaises "no helper";
     disk := DiskOk; console := ConsoleOk; ticker := ConsoleOk; naps := None |}.

(** A console that works. *)
Definition terminal : scan_console :=
  {| banner := ConsoleOk; summary := ConsoleOk; on_interrupt := ConsoleOk;
     on_error := ConsoleOk |}.

(** A device that yields three non-zero words and one zero word; the
    user interrupts during the fifth read. *)
Definition interrupted_env (n : Z) : probe :=
  if n =? 1 then answers (UsbResponds [x01; x02; x03; x04])
  else if n =? 2 then answers (UsbResponds [x00; x00; x00; x00])
  else if n =? 3 then answers (UsbResponds [xde; xad; xbe; xef])
  else if n =? 4 then answers (UsbResponds [x10; x20; x30; x40])
  else answers UsbInterrupted.

(** A device that answers every peek with a response starting with
    0x04. *)
Definition nonstandard_env (n : Z) : probe :=
  answers (UsbResponds [x04; x00; x00; x00]).

(** A device that answers every peek with the same non-zero word. *)
Definition steady_env (n : Z) : probe :=
  answers (UsbResponds [xca; xfe; xba; xbe]).

(** A scanner that found the device over pyusb and has no helper. *)
Definition scanner : QFPROMExtractor.world :=
  QFPROMExtractor.fresh (QFPROMExtractor.init None None true).

(** A scanner with both channels, and a probe on which the device
    answers with 0x04 while the helper delivers four bytes. *)
Definition dual_scanner : QFPROMExtractor.world :=
  QFPROMExtractor.fresh
    (QFPROMExtractor.init (Some "edl.py") (Some "prog_firehose.elf") true).

Definition degraded_probe : probe :=
  {| clock := "2024-01-01T00:00:00"; usb := UsbResponds [x04; x00; x00; x00];
     edl := EdlExits 0 (Some [x0a; x0b; x0c; x0d]); disk := DiskOk;
     console := ConsoleOk; ticker := ConsoleOk; naps := None |}.

End Example.

(** * The static parsers of the same file *)

(** ** Byte strings *)

Module Bytes.

(** The slice [s[lo:hi]] for [0 <= lo]. *)
Definition slice (s : list byte) (lo hi : Z) : list byte :=
  firstn (Z.to_nat (hi - lo)) (skipn (Z.to_nat lo) s).

(** [struct.unpack("<I", bs)[0]]; [None] is [struct.error] (the
    argument is not four bytes long). *)
Definition unpack_le32 (bs : list byte) : option Z :=
  match bs with
  | [b0; b1; b2; b3] =>
    Some (Z.of_N (Byte.to_N b0) + 256 * Z.of_N (Byte.to_N b1)
          + 65536 * Z.of_N (Byte.to_N b2) + 16777216 * Z.of_N (Byte.to_N b3))
  | _ => None
  end.

Fixpoint starts_with (sub s : list byte) : bool :=
  match sub, s with
  | [], _ => true
  | _ :: _, [] => false
  | x :: sub', y :: s' => Byte.eqb x y && starts_with sub' s'
  end.

(** The first position of [sub] in [s], counted from [base]; [-1] when
    there is none. *)
Fixpoint find_in (sub s : list byte) (base : Z) : Z :=
  if starts_with sub s then base
  else match s with
       | [] => -1
       | _ :: s' => find_in sub s' (base + 1)
       end.

(** [s.find(sub, start)] for [0 <= start]. *)
Definition find (sub s : list byte) (start : Z) : Z :=
  if Z.of_nat (length s) <? start then -1
  else find_in sub (skipn (Z.to_nat start) s) start.

End Bytes.

(** ** [SLACertificate] *)

Module SLACertificate.

Definition SLA_MAGIC : list byte := ["S"%byte; "L"%byte; "A"%byte; x00].
Definition SLA_SIZE_BYTES : Z := 2048.

Record t := {
  data : list byte;
  size : Z;
  magic : option (list byte);
  version : option Z;
  issuer : option (list byte);
  subject : option (list byte);
  serial : option Z;
  signature : option (list byte)
}.

(** [__init__] *)
Definition init (data : list byte) : t :=
  {| data := data; size := Z.of_nat (length data); magic := None; version := None;
     issuer := None; subject := None; serial := None; signature := None |}.

Definition set_magic (m : list byte) (c : t) : t :=
  {| data := data c; size := size c; magic := Some m; version := version c;
     issuer := issuer c; subject := subject c; serial := serial c;
     signature := signature c |}.

Definition set_version (v : Z) (c : t) : t :=
  {| data := data c; size := size c; magic := magic c; version := Some v;
     issuer := issuer c; subject := subject c; serial := serial c;
     signature := signature c |}.

Definition set_serial (v : Z) (c : t) : t :=
  {| data := data c; size := size c; magic := magic c; version := version c;
     issuer := issuer c; subject := subject c; serial := Some v;
     signature := signature c |}.

Definition set_signature (sg : list byte) (c : t) : t :=
  {| data := data c; size := size c; magic := magic c; version := version c;
     issuer := issuer c; subject := subject c; serial := serial c;
     signature := Some sg |}.

(** [parse]: the returned flag and the object afterwards. An unpacking
    that raises ends in the [except] clause, which returns [False]. *)
Definition parse (self : t) : bool * t :=
  let len := Z.of_nat (length (data self)) in
  if len <? 4 then (false, self)
  else
    let self := set_magic (Bytes.slice (data self) 0 4) self in
    if negb (QFPROMExtractor.bytes_eqb (Bytes.slice (data self) 0 4) SLA_MAGIC)
    then (false, self)
    else if len <? 8 then (false, self)
    else
      match Bytes.unpack_le32 (Bytes.slice (data self) 4 8) with
      | None => (false, self)
      | Some v =>
        let self := set_version v self in
        let offset := 8 in
        let step :=
          if offset + 4 <=? len then
            match Bytes.unpack_le32 (Bytes.slice (data self) offset (offset + 4)) with
            | None => None
            | Some sn => Some (set_serial sn self, offset + 4)
            end
          else Some (self, offset) in
        match step with
        | None => (false, self)
        | Some (self, offset) =>
          let self :=
            if offset <? len
            then set_signature (skipn (Z.to_nat offset) (data self)) self
            else self in
          (true, self)
        end
      end.

(** The dictionary returned by [to_dict]. *)
Record dict := {
  d_magic : option string;
  d_version : option Z;
  d_serial : option string;
  d_size : Z;
  d_signature_size : Z
}.

(** [to_dict]; [x if self.serial else None] tests the truth value of the
    number, and likewise the byte strings. *)
Definition to_dict (self : t) : dict :=
  {| d_magic := match magic self with
                | Some ((_ :: _) as m) => Some (Fmt.bytes_hex m)
                | _ => None
                end;
     d_version := version self;
     d_serial := match serial self with
                 | Some sn => if sn =? 0 then None else Some (Fmt.addr08 sn)
                 | None => None
                 end;
     d_size := size self;
     d_signature_size := match signature self with
                         | Some ((_ :: _) as sg) => Z.of_nat (length sg)
                         | _ => 0
                         end |}.

End SLACertificate.

(** ** [BootPartitionAnalyzer] *)

Module BootPartitionAnalyzer.

Definition BOOT_MAGIC : list byte :=
  ["A"%byte; "N"%byte; "D"%byte; "R"%byte; "O"%byte; "I"%byte; "D"%byte; "!"%byte].

(** The [while True] loop of [find_sla_signatures]; every pass moves
    [offset] forward, so [fuel] passes bound it. *)
Fixpoint find_loop (fuel : nat) (boot_image : list byte) (offset : Z)
    (signatures : list (Z * list byte)) : list (Z * list byte) :=
  match fuel with
  | O => signatures
  | S fuel' =>
    let pos := Bytes.find SLACertificate.SLA_MAGIC boot_image offset in
    if pos =? -1 then signatures
    else
      let sla_data := Bytes.slice boot_image pos (pos + SLACertificate.SLA_SIZE_BYTES) in
      find_loop fuel' boot_image (pos + 4) (signatures ++ [(pos, sla_data)])%list
  end.

(** [find_sla_signatures] *)
Definition find_sla_signatures (boot_image : list byte) : list (Z * list byte) :=
  find_loop (S (length boot_image)) boot_image 0 [].

Record header := {
  h_magic : string;
  kernel_size : Z;
  kernel_addr : string;
  ramdisk_size : Z;
  ramdisk_addr : string;
  second_size : Z;
  second_addr : string;
  tags_addr : string;
  page_size : Z
}.

Definition field (boot_image : list byte) (lo : Z) : option Z :=
  Bytes.unpack_le32 (Bytes.slice boot_image lo (lo + 4)).

(** [analyze_boot_header]; an unpacking that raises ends in the
    [except] clause, which returns [None]. *)
Definition analyze_boot_header (boot_image : list byte) : option header :=
  if Z.of_nat (length boot_image) <? 2048 then None
  else if negb (QFPROMExtractor.bytes_eqb (Bytes.slice boot_image 0 8) BOOT_MAGIC)
  then None
  else
    match field boot_image 8, field boot_image 12, field boot_image 16,
          field boot_image 20, field boot_image 24, field boot_image 28,
          field boot_image 32, field boot_image 36 with
    | Some ksize, Some kaddr, Some rsize, Some raddr,
      Some ssize, Some saddr, Some taddr, Some psize =>
      Some {| h_magic := "ANDROID!";
              kernel_size := ksize; kernel_addr := Fmt.addr08 kaddr;
              ramdisk_size := rsize; ramdisk_addr := Fmt.addr08 raddr;
              second_size := ssize; second_addr := Fmt.addr08 saddr;
              tags_addr := Fmt.addr08 taddr; page_size := psize |}
    | _, _, _, _, _, _, _, _ => None
    end.

(** [extract_kernel]: the returned flag and the bytes written to the
    output file, if any; [write_ok] tells whether the file can be
    written. *)
Definition extract_kernel (write_ok : bool) (boot_image : list byte)
    : bool * option (list byte) :=
  let kernel_start := 2048 in
  if 12 <=? Z.of_nat (length boot_image) then
    match field boot_image 8 with
    | None => (false, None)
    | Some ksize =>
      let kernel_data := Bytes.slice boot_image kernel_start (kernel_start + ksize) in
      if write_ok then (true, Some kernel_data) else (false, None)
    end
  else (false, None).

(** Where the ramdisk starts; [None] is the [ZeroDivisionError] of the
    floor division by [page_size]. *)
Definition ramdisk_start (h : header) : option Z :=
  if page_size h =? 0 then None
  else
    let kernel_pages := (kernel_size h + page_size h - 1) / page_size h in
    Some (page_size h + kernel_pages * page_size h).

(** [extract_ramdisk] *)
Definition extract_ramdisk (write_ok : bool) (boot_image : list byte)
    : bool * option (list byte) :=
  match analyze_boot_header boot_image with
  | None => (false, None)
  | Some h =>
    match ramdisk_start h with
    | None => (false, None)
    | Some rstart =>
      let ramdisk_data := Bytes.slice boot_image rstart (rstart + ramdisk_size h) in
      if write_ok then (true, Some ramdisk_data) else (false, None)
    end
  end.

End BootPartitionAnalyzer.

(** * Observations on traces *)

Module Trace.

(** A trace in which device reads only occur inside a peek exchange: the
    write of the command, the 10 ms delay, the read. *)
Inductive paced : list io_event -> Prop :=
| paced_nil : paced []
| paced_peek (address : Z) (rest : list io_event) :
    paced rest ->
    paced (UsbWrite address :: Sleep QFPROMExtractor.PEEK_COMMAND_DELAY_ms
           :: UsbRead :: rest)
| paced_other (e : io_event) (rest : list io_event) :
    e <> UsbRead -> paced rest -> paced (e :: rest).

(** Every device read of the trace comes directly after a 10 ms sleep
    that comes directly after a write to the device. *)
Definition delay_respected (evs : list io_event) : Prop :=
  forall pre post,
    evs = (pre ++ UsbRead :: post)%list ->
    exists pre' address,
      pre = (pre' ++ [UsbWrite address; Sleep QFPROMExtractor.PEEK_COMMAND_DELAY_ms])%list.

(** The lines appended to the results file, in order. *)
Definition appended (evs : list io_event) : list string :=
  flat_map (fun e => match e with
                     | Append line => [line]
                     | _ => []
                     end) evs.

(** The line of the results file for one read, if the read is stored. *)
Definition line_of (address : Z) (r : outcome (option (list byte))) : list string :=
  match r with
  | Ret (Some d) =>
    if Spec.storedb d then [Fmt.addr08 address ++ ": " ++ Fmt.hex_join d] else []
  | _ => []
  end.

Definition lines_of (new : list (Z * outcome (option (list byte)))) : list string :=
  flat_map (fun ar => line_of (fst ar) (snd ar)) new.

(** The number of [skip_to_next_block] actions among the actions. *)
Definition block_skips (acts : list USBErrorRecovery.action) : nat :=
  length (List.filter (fun a => match USBErrorRecovery.action_ a with
                                | USBErrorRecovery.skip_to_next_block => true
                                | _ => false
                                end) acts).

(** A recorded region that ends on a 4 KiB boundary, at most 4 KiB after
    its start. *)
Definition region_ok (r : USBErrorRecovery.skip_region) : Prop :=
  USBErrorRecovery.region_reason r = "0x04_errors"
  /\ USBErrorRecovery.end_ r mod 0x1000 = 0
  /\ USBErrorRecovery.start r < USBErrorRecovery.end_ r
     <= USBErrorRecovery.start r + 0x1000.

End Trace.

(** More test inputs. *)
Module Example2.

(** A policy object one error short of the threshold. *)
Definition strained : USBErrorRecovery.t :=
  USBErrorRecovery.set_error_count 4 USBErrorRecovery.init.

(** An Android boot image of one page: kernel size 0x801, page size
    0x800. *)
Definition boot_image : list byte :=
  (BootPartitionAnalyzer.BOOT_MAGIC
   ++ [x01; x08; x00; x00; x00; x80; x00; x10]
   ++ repeat x00 20 ++ [x00; x08; x00; x00] ++ repeat x01 2008)%list.

(** An image with the Android magic and nothing else: every header
    field is zero. *)
Definition blank_boot_image : list byte :=
  (BootPartitionAnalyzer.BOOT_MAGIC ++ repeat x00 2040)%list.

(** A probe on which the device answers two bytes. *)
Definition short_probe : probe :=
  {| clock := "2024-01-01T00:00:00"; usb := UsbResponds [x01; x02];
     edl := EdlRaises "no helper"; disk := DiskOk;
     console := ConsoleOk; ticker := ConsoleOk; naps := None |}.

(** A probe on which writing to the device fails. *)
Definition broken_probe : probe :=
  {| clock := "2024-01-01T00:00:00"; usb := UsbWriteRaises "Input/Output Error";
     edl := EdlRaises "no helper"; disk := DiskOk;
     console := ConsoleOk; ticker := ConsoleOk; naps := None |}.

(** A device that answers every peek with a non-zero word while the
    results file cannot be written. *)
Definition read_only_disk_env (n : Z) : probe :=
  {| clock := "2024-01-01T00:00:00"; usb := UsbResponds [xca; xfe; xba; xbe];
     edl := EdlRaises "no helper"; disk := DiskRaises "Read-only file system";
     console := ConsoleOk; ticker := ConsoleOk; naps := None |}.

(** The same device with a writable file, the user interrupting the
    third read. *)
Definition ctrl_c_env (n : Z) : probe :=
  {| clock := "2024-01-01T00:00:00";
     usb := if n =? 3 then UsbInterrupted else UsbResponds [xca; xfe; xba; xbe];
     edl := EdlRaises "no helper"; disk := DiskOk;
     console := ConsoleOk; ticker := ConsoleOk; naps := None |}.



(** A device that cannot be written to, while the progress line cannot
    be printed. *)
Definition stalling_env (n : Z) : probe :=
  {| clock := "2024-01-01T00:00:00"; usb := UsbWriteRaises "Input/Output Error";
     edl := EdlRaises "no helper"; disk := DiskOk; console := ConsoleOk;
     ticker := ConsoleRaises "Broken pipe"; naps := None |}.

(** A console that cannot encode the arrow of the banner. *)
Definition ascii_console : scan_console :=
  {| banner := ConsoleRaises "'ascii' codec can't encode character";
     summary := ConsoleOk; on_interrupt := ConsoleOk; on_error := ConsoleOk |}.

(** A console that is closed while the sweep runs: the banner goes
    through, the later messages do not. *)
Definition closed_console : scan_console :=
  {| banner := ConsoleOk; summary := ConsoleRaises "Broken pipe";
     on_interrupt := ConsoleRaises "Broken pipe";
     on_error := ConsoleRaises "Broken pipe" |}.

(** A scanner without the device, with the helper only. *)
Definition helper_scanner : QFPROMExtractor.world :=
  QFPROMExtractor.fresh
    (QFPROMExtractor.init (Some "edl.py") (Some "prog_firehose.elf") false).

(** An error response carrying a value attribute. *)
Definition error_response : list byte :=
  (map (fun c => match Byte.of_N (N_of_ascii c) with Some b => b | None => x00 end)
       (list_ascii_of_string "<response value=")
   ++ [x22]
   ++ map (fun c => match Byte.of_N (N_of_ascii c) with Some b => b | None => x00 end)
       (list_ascii_of_string "ERROR: bad address")
   ++ [x22])%list.

End Example2.

(** * Properties *)

Import USBErrorRecovery.

(** ** Command codec *)

Lemma status_set_error e r :
  FirehoseXMLHandler.status (FirehoseXMLHandler.set_error e r) = FirehoseXMLHandler.status r.
Proof. reflexivity. Qed.

Lemma status_set_status s r :
  FirehoseXMLHandler.status (FirehoseXMLHandler.set_status s r) = s.
Proof. reflexivity. Qed.

Lemma classify_text_status response r :
  FirehoseXMLHandler.status r = "unknown" ->
  FirehoseXMLHandler.status
    (FirehoseXMLHandler.classify_text (Text.utf8_decode_ignore response) r)
  = Spec.first_match (tl Spec.rules) response "unknown".
Proof.
  intros Hr. unfold FirehoseXMLHandler.classify_text, Spec.rules, Spec.has. simpl.
  destruct (Text.contains (Text.of_string "ACK") _); [reflexivity|].
  destruct (Text.contains (Text.of_string "NAK") _); [reflexivity|].
  destruct (Text.contains (Text.of_string "ERROR") _); simpl.
  { destruct (Text.search_value _); reflexivity. }
  destruct (Text.contains (Text.of_string "error") _); simpl.
  { destruct (Text.search_value _); reflexivity. }
  destruct (Text.contains (Text.of_string "<log ") _); [reflexivity|].
  exact Hr.
Qed.

(** C7: a response whose first byte is 0x04 is classified
    [error_code_0x04] whatever its text says, and on every response the
    status is the one of the first applicable rule of the priority list
    that starts with the first-byte rule. *)
Theorem C7_first_byte_0x04_has_priority :
  (forall rest : list byte,
     FirehoseXMLHandler.status (FirehoseXMLHandler.parse_response (x04 :: rest))
     = "error_code_0x04")
  /\ (forall response : list byte,
        FirehoseXMLHandler.status (FirehoseXMLHandler.parse_response response)
        = Spec.first_match Spec.rules response "unknown").
Proof.
  split.
  - intros rest. reflexivity.
  - intros response. unfold FirehoseXMLHandler.parse_response.
    destruct response as [|b rest].
    + simpl firstn. cbv iota. rewrite classify_text_status by reflexivity.
      reflexivity.
    + change (firstn 1 (b :: rest)) with [b].
      cbv iota. change (Spec.first_match Spec.rules (b :: rest) "unknown")
        with (if Byte.eqb b x04 then "error_code_0x04"
              else Spec.first_match (tl Spec.rules) (b :: rest) "unknown").
      destruct (Byte.eqb b x04); [reflexivity|].
      apply classify_text_status. reflexivity.
Qed.

(** ** Error-recovery policy *)

Lemma low_count_init : Spec.low_count USBErrorRecovery.init.
Proof. unfold Spec.low_count. simpl. repeat split; lia. Qed.

Lemma low_count_reset st : Spec.low_count st -> Spec.low_count (reset_error_count st).
Proof.
  unfold Spec.low_count. destruct st; simpl. intros (? & ? & ?). repeat split; auto; lia.
Qed.

Ltac policy_cases :=
  repeat match goal with
         | |- context [?a =? ?b] => destruct (Z.eqb_spec a b)
         | |- context [?a <=? ?b] => destruct (Z.leb_spec a b)
         | |- context [?a <? ?b] => destruct (Z.ltb_spec a b)
         end.

Lemma low_count_handle_error now address code resp st :
  Spec.low_count st ->
  let '(_, a, st') := handle_error now address code resp st in
  Spec.low_count st' /\ action_ a <> skip_to_next_block.
Proof.
  unfold Spec.low_count. destruct st as [th n le lg sk]; simpl.
  intros (-> & Hn & ->). unfold handle_error, default_skip; simpl.
  policy_cases; simpl; repeat split; try lia; try discriminate; auto.
Qed.

Lemma run_low_count calls : forall st,
  Spec.low_count st ->
  Spec.low_count (snd (Spec.run calls st))
  /\ Forall (fun a => action_ a <> skip_to_next_block) (fst (Spec.run calls st)).
Proof.
  induction calls as [|c calls IH]; intros st Hst; simpl.
  - split; [assumption | constructor].
  - destruct c as [now address code resp|].
    + pose proof (low_count_handle_error now address code resp st Hst) as H.
      destruct (handle_error now address code resp st) as [[evs a] st'].
      destruct H as [Hst' Ha]. specialize (IH st' Hst').
      destruct (Spec.run calls st') as [acts st'']. simpl in *.
      destruct IH as [IH1 IH2]. split; [assumption | constructor; assumption].
    + apply IH, low_count_reset, Hst.
Qed.

(** C1 (what the code does instead): five consecutive 0x04 errors on a
    fresh policy, at any addresses, all end in [skip_address]; the
    counter goes 1, 2, 0, 1, 2 and no skip region is recorded. *)
Theorem C1_five_0x04_errors_never_skip_block (a1 a2 a3 a4 a5 : Z) :
  let calls := [Spec.HandleError "t1" a1 0x04 None; Spec.HandleError "t2" a2 0x04 None;
                Spec.HandleError "t3" a3 0x04 None; Spec.HandleError "t4" a4 0x04 None;
                Spec.HandleError "t5" a5 0x04 None] in
  map action_ (fst (Spec.run calls USBErrorRecovery.init))
  = [skip_address; skip_address; skip_address; skip_address; skip_address]
  /\ Spec.counts calls USBErrorRecovery.init = [1; 2; 0; 1; 2]
  /\ skip_regions (snd (Spec.run calls USBErrorRecovery.init)) = [].
Proof. repeat split. Qed.

(** C2: from a fresh policy, after any sequence of [handle_error] and
    [reset_error_count] calls the counter is at most 2, no call returned
    [skip_to_next_block], and [skip_regions] is empty. *)
Theorem C2_counter_never_reaches_threshold (calls : list Spec.call) :
  0 <= error_count (snd (Spec.run calls USBErrorRecovery.init)) <= 2
  /\ Forall (fun a => action_ a <> skip_to_next_block)
            (fst (Spec.run calls USBErrorRecovery.init))
  /\ skip_regions (snd (Spec.run calls USBErrorRecovery.init)) = [].
Proof.
  destruct (run_low_count calls _ low_count_init) as [(_ & Hc & Hs) Ha].
  auto.
Qed.

(** C3 (amended): a call that ends in the default branch returns
    [skip_address] with [next_address = address + 4] and [skip_size = 4];
    the counter becomes 0 when its value after the increment is at least
    3 and otherwise keeps that value, which is 1 or 2. *)
Theorem C3_default_branch_skips_four_bytes
    (now : string) (address error_code : Z) (resp : option (list byte))
    (st : USBErrorRecovery.t) :
  0 <= error_count st ->
  Spec.takes_default error_code st ->
  let '(_, a, st') := handle_error now address error_code resp st in
  a = {| action_ := skip_address; next_address := address + 4; skip_size := Some 4;
         delay_ms := None; reason := "graceful_skip" |}
  /\ (3 <= error_count st + 1 -> error_count st' = 0)
  /\ (error_count st + 1 < 3 ->
      error_count st' = error_count st + 1
      /\ (error_count st' = 1 \/ error_count st' = 2)).
Proof.
  unfold Spec.takes_default. destruct st as [th n le lg sk]; simpl.
  intros Hn Hd. unfold handle_error, default_skip; simpl.
  policy_cases; simpl; repeat split; try lia; auto.
Qed.

Lemma C3_default_branch_witness :
  let '(_, a, st') := handle_error "t" 0x00701000 0x04 None USBErrorRecovery.init in
  a = {| action_ := skip_address; next_address := 0x00701000 + 4; skip_size := Some 4;
         delay_ms := None; reason := "graceful_skip" |}
  /\ (3 <= error_count USBErrorRecovery.init + 1 -> error_count st' = 0)
  /\ (error_count USBErrorRecovery.init + 1 < 3 ->
      error_count st' = error_count USBErrorRecovery.init + 1
      /\ (error_count st' = 1 \/ error_count st' = 2)).
Proof.
  apply (C3_default_branch_skips_four_bytes "t" 0x00701000 0x04 None
           USBErrorRecovery.init).
  - simpl. lia.
  - left. simpl. split; [reflexivity | lia].
Defined.

(** C4: starting from count 0, the first and the second consecutive 0xFF
    error sleep two seconds and return [retry] at the same address with
    a delay of 2000 ms; the third returns [skip_address] and leaves the
    counter at 0. *)
Theorem C4_two_retries_then_skip
    (n1 n2 n3 : string) (a1 a2 a3 : Z) (r1 r2 r3 : option (list byte))
    (st : USBErrorRecovery.t) :
  error_count st = 0 ->
  let '(ev1, act1, st1) := handle_error n1 a1 0xff r1 st in
  let '(ev2, act2, st2) := handle_error n2 a2 0xff r2 st1 in
  let '(ev3, act3, st3) := handle_error n3 a3 0xff r3 st2 in
  (action_ act1 = retry /\ next_address act1 = a1 /\ delay_ms act1 = Some 2000
   /\ ev1 = [Sleep 2000])
  /\ (action_ act2 = retry /\ next_address act2 = a2 /\ delay_ms act2 = Some 2000
      /\ ev2 = [Sleep 2000])
  /\ (action_ act3 = skip_address /\ next_address act3 = a3 + 4)
  /\ error_count st1 = 1 /\ error_count st2 = 2 /\ error_count st3 = 0.
Proof.
  destruct st as [th n le lg sk]; simpl. intros ->.
  repeat split.
Qed.

Lemma C4_two_retries_then_skip_witness :
  let '(ev1, act1, st1) := handle_error "t1" 0x00701000 0xff None USBErrorRecovery.init in
  let '(ev2, act2, st2) := handle_error "t2" 0x00701000 0xff None st1 in
  let '(ev3, act3, st3) := handle_error "t3" 0x00701000 0xff None st2 in
  (action_ act1 = retry /\ next_address act1 = 0x00701000 /\ delay_ms act1 = Some 2000
   /\ ev1 = [Sleep 2000])
  /\ (action_ act2 = retry /\ next_address act2 = 0x00701000 /\ delay_ms act2 = Some 2000
      /\ ev2 = [Sleep 2000])
  /\ (action_ act3 = skip_address /\ next_address act3 = 0x00701000 + 4)
  /\ error_count st1 = 1 /\ error_count st2 = 2 /\ error_count st3 = 0.
Proof.
  apply (C4_two_retries_then_skip "t1" "t2" "t3" 0x00701000 0x00701000 0x00701000
           None None None USBErrorRecovery.init).
  reflexivity.
Defined.

(** ** Diagnostics collector *)

Lemma last_n_suffix {A} (n : nat) (l : list A) :
  l = (firstn (length l - n) l ++ SLAResponseLogger.last_n n l)%list.
Proof. unfold SLAResponseLogger.last_n. symmetry. apply firstn_skipn. Qed.

Lemma last_n_length {A} (n : nat) (l : list A) :
  length (SLAResponseLogger.last_n n l) = Nat.min n (length l).
Proof. unfold SLAResponseLogger.last_n. rewrite length_skipn. lia. Qed.

(** C6 (what the code writes): the document holds the counts of the
    responses, the challenges and the errors, the last 100 responses,
    the last 50 errors (each a suffix of its stream) and all the
    challenges; under the key [loader_responses] it holds the list of
    loader responses, which replaced their count. *)
Theorem C6_diagnostics_document (now : string) (self : SLAResponseLogger.t) :
  let doc := SLAResponseLogger.diagnostics now self in
  doc !! "total_responses"
    = Some (SLAResponseLogger.VInt (Z.of_nat (length (SLAResponseLogger.responses self))))
  /\ doc !! "sla_challenges_count"
    = Some (SLAResponseLogger.VInt (Z.of_nat (length (SLAResponseLogger.sla_challenges self))))
  /\ doc !! "errors_count"
    = Some (SLAResponseLogger.VInt (Z.of_nat (length (SLAResponseLogger.errors self))))
  /\ doc !! "responses"
    = Some (SLAResponseLogger.VResponses
              (SLAResponseLogger.last_n 100 (SLAResponseLogger.responses self)))
  /\ doc !! "errors"
    = Some (SLAResponseLogger.VErrors
              (SLAResponseLogger.last_n 50 (SLAResponseLogger.errors self)))
  /\ doc !! "sla_challenges"
    = Some (SLAResponseLogger.VChallenges (SLAResponseLogger.sla_challenges self))
  /\ doc !! "loader_responses"
    = Some (SLAResponseLogger.VLoaders (SLAResponseLogger.loader_responses self))
  /\ size doc = 8%nat
  /\ length (SLAResponseLogger.last_n 100 (SLAResponseLogger.responses self))
     = Nat.min 100 (length (SLAResponseLogger.responses self))
  /\ length (SLAResponseLogger.last_n 50 (SLAResponseLogger.errors self))
     = Nat.min 50 (length (SLAResponseLogger.errors self))
  /\ (exists older,
        SLAResponseLogger.responses self
        = (older ++ SLAResponseLogger.last_n 100 (SLAResponseLogger.responses self))%list)
  /\ (exists older,
        SLAResponseLogger.errors self
        = (older ++ SLAResponseLogger.last_n 50 (SLAResponseLogger.errors self))%list).
Proof.
  cbv zeta.
  repeat (split; [first [reflexivity | apply last_n_length]|]).
  split; eexists; apply last_n_suffix.
Qed.

Lemma successes_successful (self : SLAResponseLogger.t) :
  SLAResponseLogger.successes self
  = Spec.successful (SLAResponseLogger.loader_responses self).
Proof.
  unfold SLAResponseLogger.successes.
  induction (SLAResponseLogger.loader_responses self) as [|r rs IH];
    [reflexivity|].
  simpl. destruct (SLAResponseLogger.l_success r); simpl length; lia.
Qed.

(** C10: for every state of the logger the success rate of
    [get_connection_summary] is defined (the divisor is at least 1) and
    is the number of successful loader responses over
    [max(attempts, 1)], as a percentage; it lies between 0 and 100, is 0
    when no loader response was logged, and is 50 for one success in two
    attempts. *)
Theorem C10_success_rate_never_divides_by_zero :
  (forall self : SLAResponseLogger.t,
     exists q, SLAResponseLogger.loader_success_rate self = Some q
               /\ q = Spec.rate (SLAResponseLogger.loader_responses self)
               /\ (0 <= q)%Q /\ (q <= 100)%Q
               /\ exists s, SLAResponseLogger.get_connection_summary self = Some s
                            /\ SLAResponseLogger.s_success_rate s = q)
  /\ (forall (f : string) rs cs es,
        SLAResponseLogger.loader_success_rate
          {| SLAResponseLogger.log_file := f; SLAResponseLogger.responses := rs;
             SLAResponseLogger.sla_challenges := cs;
             SLAResponseLogger.loader_responses := [];
             SLAResponseLogger.errors := es |} = Some 0%Q)
  /\ (forall (f : string) rs cs es (t1 t2 n1 n2 m1 m2 : string),
        exists q,
          option_map SLAResponseLogger.s_success_rate
            (SLAResponseLogger.get_connection_summary
               {| SLAResponseLogger.log_file := f; SLAResponseLogger.responses := rs;
                  SLAResponseLogger.sla_challenges := cs;
                  SLAResponseLogger.loader_responses :=
                    [ {| SLAResponseLogger.l_timestamp := t1;
                         SLAResponseLogger.l_loader := n1;
                         SLAResponseLogger.l_response := m1;
                         SLAResponseLogger.l_success := true |};
                      {| SLAResponseLogger.l_timestamp := t2;
                         SLAResponseLogger.l_loader := n2;
                         SLAResponseLogger.l_response := m2;
                         SLAResponseLogger.l_success := false |} ];
                  SLAResponseLogger.errors := es |}) = Some q
          /\ (q == 50)%Q).
Proof.
  split; [|split].
  - intros self.
    unfold SLAResponseLogger.get_connection_summary,
      SLAResponseLogger.loader_success_rate, SLAResponseLogger.true_div, Spec.rate.
    rewrite <- (successes_successful self).
    set (n := Z.of_nat (length (SLAResponseLogger.loader_responses self))).
    assert (Hs : 0 <= SLAResponseLogger.successes self <= n).
    { unfold SLAResponseLogger.successes, n. split; [lia|].
      apply inj_le. apply filter_length_le. }
    destruct (Z.eqb_spec (Z.max n 1) 0) as [E|E]; [lia|].
    eexists. split; [reflexivity|]. split; [reflexivity|].
    assert (Hm : (0 < inject_Z (Z.max n 1))%Q).
    { rewrite <- (Zlt_Qlt 0). lia. }
    repeat split.
    + apply Qmult_le_0_compat; [|discriminate].
      apply Qle_shift_div_l; [exact Hm|].
      rewrite Qmult_0_l. rewrite <- (Zle_Qle 0). lia.
    + apply Qle_trans with (1 * inject_Z 100)%Q; [|discriminate].
      apply Qmult_le_compat_r; [|discriminate].
      apply Qle_shift_div_r; [exact Hm|].
      rewrite Qmult_1_l. rewrite <- Zle_Qle. lia.
    + eexists. split; reflexivity.
  - intros. reflexivity.
  - intros. eexists. split; [reflexivity|]. reflexivity.
Qed.

(** ** Transport *)

Import QFPROMExtractor.

Lemma handle_error_events now address code resp st :
  fst (fst (USBErrorRecovery.handle_error now address code resp st)) = []
  \/ fst (fst (USBErrorRecovery.handle_error now address code resp st)) = [Sleep 2000].
Proof.
  unfold USBErrorRecovery.handle_error, default_skip.
  policy_cases; simpl; auto.
Qed.

Lemma first_byte_firstn (n : nat) (r : list byte) :
  match firstn (S n) r with b :: _ => Byte.eqb b x04 | [] => false end
  = Spec.first_byte_is x04 r.
Proof. destruct r; reflexivity. Qed.

Lemma native_firstn (r : list byte) :
  (if (4 <=? length (firstn 512 r))%nat then Some (firstn 4 (firstn 512 r)) else None)
  = (if (4 <=? length r)%nat then Some (firstn 4 r) else None).
Proof.
  rewrite length_firstn, firstn_firstn.
  change (Nat.min 4 512) with 4%nat.
  destruct (Nat.leb_spec 4 (length r)), (Nat.leb_spec 4 (Nat.min 512 (length r)));
    try reflexivity; lia.
Qed.

#[local] Arguments Fmt.addr08 : simpl never.
#[local] Arguments USBErrorRecovery.handle_error : simpl never.
#[local] Arguments USBErrorRecovery.record_error : simpl never.
#[local] Arguments firstn : simpl never.
#[local] Arguments Nat.leb : simpl never.
#[local] Arguments Nat.eqb : simpl never.

Ltac io_assoc := rewrite <- ?app_assoc; simpl; try reflexivity.

(** The events of a call of the policy are known: nothing, or the
    cooldown. *)
Ltac policy_events E :=
  match type of E with
  | USBErrorRecovery.handle_error ?n ?a ?c ?r ?st = _ =>
    let K := fresh in
    pose proof (handle_error_events n a c r st) as K;
    rewrite E in K; simpl in K; destruct K as [K|K]; subst
  | _ => idtac
  end.

Ltac no_edl :=
  let H := fresh in
  simpl; intros H;
  repeat (destruct H as [H|H]; [discriminate H|]);
  exact H.

Ltac unless_interrupted :=
  let Hu := fresh in
  let Hn := fresh in
  intros Hu Hn;
  first [ discriminate Hn | discriminate Hu | reflexivity | congruence ].

Ltac pyusb_case :=
  do 3 eexists;
  split; [reflexivity|];
  split; [reflexivity|];
  split; [io_assoc|];
  split; [no_edl|];
  split; [repeat split|];
  split; unless_interrupted.

Ltac unfold_transport :=
  unfold _read_memory_pyusb, _read_memory_fallback, try_except, device_write,
    device_read, subprocess_run, handle_error, sleep, nap, interrupts, emit, diag,
    reset_error_count, modify_self, get_self, raise, mbind, mret, M_bind, M_ret.

Lemma pyusb_spec p a w :
  Spec.native_available (self w) = true ->
  exists o w' evs,
    _read_memory_pyusb p a w = (o, w')
    /\ reads w' = reads w
    /\ io w' = (io w ++ UsbWrite a :: evs)%list
    /\ ~ In (EdlRun a) evs
    /\ Spec.frame (self w') (self w)
    /\ (usb p <> UsbInterrupted -> naps p = None ->
        o = Ret (Spec.native (self w) p))
    /\ (usb p = UsbInterrupted -> naps p = None -> o = Raise KeyboardInterrupt).
Proof.
  destruct w as [s i r]. destruct s as [eb ld dv up lf sr ed sl er].
  unfold Spec.native_available, Spec.native, Spec.frame; simpl.
  intros Hav. apply andb_prop in Hav as [-> ->].
  unfold_transport; simpl.
  destruct p as [ck u e d co ti np]; simpl.
  destruct u as [msg| |msg|resp|]; simpl.
  - destruct sl as [l|], ed; simpl; pyusb_case.
  - destruct np as [[| |]|]; simpl;
      destruct (USBErrorRecovery.handle_error ck a 255 None er) as [[evs0 a0] r0] eqn:E;
      policy_events E; simpl; destruct sl as [l|], ed; simpl; pyusb_case.
  - destruct np as [[| |]|]; simpl; destruct sl as [l|], ed; simpl; pyusb_case.
  - rewrite <- (native_firstn resp).
    rewrite <- (first_byte_firstn 511 resp).
    destruct (firstn 512 resp) as [|b resp'] eqn:Er; simpl.
    + destruct np as [[| |]|]; simpl; destruct sl as [l|], ed; simpl; pyusb_case.
    + destruct (Byte.eqb b x04); simpl.
      * destruct np as [[| |]|]; simpl; destruct sl as [l|], ed; simpl;
          destruct (USBErrorRecovery.handle_error ck a 4 (Some (b :: resp')) er)
            as [[evs0 a0] r0] eqn:E;
          policy_events E; simpl; pyusb_case.
      * destruct np as [[| |]|]; simpl; destruct sl as [l|], ed; simpl; pyusb_case.
  - destruct np as [[| |]|]; simpl; pyusb_case.
Qed.

Lemma fallback_firstn (c : list byte) :
  (if (length (firstn 4 c) =? 4)%nat then Some (firstn 4 c) else None)
  = (if (4 <=? length c)%nat then Some (firstn 4 c) else None).
Proof.
  rewrite length_firstn.
  destruct (Nat.eqb_spec (Nat.min 4 (length c)) 4), (Nat.leb_spec 4 (length c));
    try reflexivity; lia.
Qed.

Ltac fallback_case :=
  do 3 eexists;
  split; [reflexivity|];
  split; [reflexivity|];
  split; [io_assoc|];
  split; [reflexivity|];
  split; [simpl; split; auto|];
  unless_interrupted.

Lemma fallback_spec p a w :
  exists o w' evs,
    _read_memory_fallback p a w = (o, w')
    /\ reads w' = reads w
    /\ io w' = (io w ++ evs)%list
    /\ self w' = self w
    /\ (In (EdlRun a) evs <-> Spec.secondary_configured (self w) = true)
    /\ (edl p <> EdlInterrupted -> naps p = None ->
        o = Ret (Spec.secondary (self w) p)).
Proof.
  destruct w as [s i r]. destruct s as [eb ld dv up lf sr ed sl er].
  unfold Spec.secondary, Spec.secondary_configured; simpl.
  unfold_transport; simpl.
  destruct (truthy eb && truthy ld) eqn:Hc.
  - apply andb_prop in Hc as [-> ->]; simpl.
    destruct p as [ck u e d co ti np]; simpl.
    destruct e as [msg|code out|]; simpl.
    + fallback_case.
    + destruct code as [|c|c];
        [destruct out as [c|]; [rewrite <- (fallback_firstn c)|] | |];
        destruct np as [[| |]|]; simpl; fallback_case.
    + fallback_case.
  - assert (Hn : negb (truthy eb) || negb (truthy ld) = true)
      by (destruct (truthy eb), (truthy ld); simpl in *; congruence).
    rewrite Hn.
    exists (Ret None), {| self := {| edl_binary := eb; loader := ld; device := dv;
                           use_pyusb := up; log_file := lf; scan_results := sr;
                           enable_diagnostics := ed; sla_logger := sl;
                           error_recovery := er |}; io := i; reads := r |}, [].
    split; [reflexivity|]. split; [reflexivity|].
    split; [symmetry; apply app_nil_r|]. split; [reflexivity|].
    split; [simpl; split; [intros []|discriminate]|].
    auto.
Qed.

Lemma secondary_frame s' s p :
  Spec.frame s' s ->
  Spec.secondary s' p = Spec.secondary s p
  /\ Spec.secondary_configured s' = Spec.secondary_configured s.
Proof.
  intros (_ & He & Hl). unfold Spec.secondary, Spec.secondary_configured.
  rewrite He, Hl. split; reflexivity.
Qed.

Lemma native_unavailable s p :
  Spec.native_available s = false -> Spec.native s p = None.
Proof. unfold Spec.native. intros ->. reflexivity. Qed.

#[local] Arguments _read_memory_pyusb : simpl never.
#[local] Arguments _read_memory_fallback : simpl never.

Lemma read_single_address_spec p a w :
  exists o w' evs,
    _read_single_address p a w = (o, w')
    /\ reads w' = (reads w ++ [(a, o)])%list
    /\ io w' = (io w ++ evs)%list
    /\ scan_results (self w') = scan_results (self w)
    /\ (usb p <> UsbInterrupted -> edl p <> EdlInterrupted -> naps p = None ->
        o = Ret (Spec.read4 (self w) p))
    /\ (Spec.native_available (self w) = true -> exists rest, evs = UsbWrite a :: rest)
    /\ (usb p <> UsbInterrupted -> naps p = None ->
        (In (EdlRun a) evs <->
         Spec.native (self w) p = None /\ Spec.secondary_configured (self w) = true)).
Proof.
  unfold _read_single_address, noting, get_self, mbind, M_bind, Spec.read4.
  fold (Spec.native_available (self w)).
  destruct (Spec.native_available (self w)) eqn:Hav.
  - destruct (pyusb_spec p a w Hav)
      as (o1 & w1 & evs1 & E1 & Hr1 & Hio1 & Hno & Hf & Hok & _).
    rewrite E1.
    destruct (secondary_frame _ _ p Hf) as [Hs Hc].
    destruct o1 as [[d|]|e0].
    + do 3 eexists. split; [reflexivity|]. simpl. rewrite Hr1, Hio1.
      split; [reflexivity|]. split; [reflexivity|]. split; [apply Hf|].
      split.
      { intros Hu _ Hn. specialize (Hok Hu Hn). injection Hok as <-. reflexivity. }
      split; [eauto|].
      intros Hu Hn. specialize (Hok Hu Hn). injection Hok as <-.
      split; [intros [H|H]; [discriminate H|contradiction]|].
      intros [H _]; discriminate H.
    + destruct (fallback_spec p a w1)
        as (o2 & w2 & evs2 & E2 & Hr2 & Hio2 & Hs2 & Hin2 & Hok2).
      rewrite E2. do 3 eexists. split; [reflexivity|]. simpl.
      rewrite Hr2, Hr1, Hio2, Hio1, Hs2.
      split; [reflexivity|].
      split; [rewrite <- app_assoc; simpl; reflexivity|].
      split; [apply Hf|].
      split.
      { intros Hu He Hn. specialize (Hok Hu Hn). injection Hok as <-.
        rewrite (Hok2 He Hn), Hs. reflexivity. }
      split; [eauto|].
      intros Hu Hn. specialize (Hok Hu Hn). injection Hok as <-.
      rewrite <- Hc, <- Hin2. simpl. rewrite in_app_iff.
      split; [intros [H|[H|H]]; [discriminate H|contradiction|auto]
             |intros [_ H]; auto].
    + do 3 eexists. split; [reflexivity|]. simpl. rewrite Hr1, Hio1.
      split; [reflexivity|]. split; [reflexivity|]. split; [apply Hf|].
      split; [intros Hu _ Hn; discriminate (Hok Hu Hn)|].
      split; [eauto|].
      intros Hu Hn; discriminate (Hok Hu Hn).
  - destruct (fallback_spec p a w)
      as (o2 & w2 & evs2 & E2 & Hr2 & Hio2 & Hs2 & Hin2 & Hok2).
    rewrite E2. rewrite (native_unavailable _ p Hav).
    do 3 eexists. split; [reflexivity|]. simpl. rewrite Hr2, Hio2, Hs2.
    split; [reflexivity|]. split; [reflexivity|]. split; [reflexivity|].
    split; [intros _ He Hn; rewrite (Hok2 He Hn); reflexivity|].
    split; [discriminate|].
    intros _ _. rewrite Hin2. tauto.
Qed.

(** ** The sweep *)

Lemma bytes_eqb_eq (a : list byte) : forall b, bytes_eqb a b = true <-> a = b.
Proof.
  induction a as [|x a IH]; intros [|y b]; simpl; split; try discriminate; auto.
  - intros H. apply andb_prop in H as [Hx Hab].
    apply Byte.byte_dec_bl in Hx. apply IH in Hab. congruence.
  - intros H. injection H as -> ->. apply andb_true_intro. split.
    + apply Byte.byte_dec_lb. reflexivity.
    + apply IH. reflexivity.
Qed.

Lemma storedb_stored (d : list byte) : Spec.storedb d = true <-> Spec.stored d.
Proof.
  unfold Spec.storedb, Spec.stored. rewrite andb_true_iff, !negb_true_iff.
  rewrite Nat.ltb_ge. split; intros [H1 H2]; split; auto.
  - intros E. apply bytes_eqb_eq in E. congruence.
  - destruct (bytes_eqb d NULL_PATTERN) eqn:E; [|reflexivity].
    apply bytes_eqb_eq in E. contradiction.
Qed.

(** The progress indicator never divides by zero; it can only fail on
    the console. *)
Lemma progress_spec p rc total w :
  Spec.progress_ok rc total ->
  exists o,
    progress p rc total w = (o, w)
    /\ match o with
       | Ret _ => True
       | Raise _ => Spec.ticker_fails p rc
       end
    /\ (ticker p = ConsoleOk -> o = Ret tt).
Proof.
  unfold Spec.progress_ok, Spec.ticker_fails, progress, console_out, raise, mret, M_ret.
  intros H.
  destruct (Z.eqb_spec (rc mod 256) 0) as [E|E].
  - destruct (Z.eqb_spec total 0) as [E'|E']; [exfalso; exact (H E E')|].
    destruct (ticker p) as [|msg|]; eexists; (split; [reflexivity|]);
      (split; [first [exact I | split; [exact E|discriminate]]|]);
      first [reflexivity | discriminate].
  - exists (Ret tt). split; [reflexivity|]. split; [exact I|reflexivity].
Qed.

#[local] Arguments _read_single_address : simpl never.
#[local] Arguments progress : simpl never.
#[local] Arguments Fmt.hex_join : simpl never.

Lemma scan_iteration_spec p total cur rc w :
  Spec.progress_ok rc total ->
  exists o w' r,
    scan_iteration p total cur rc w = (o, w')
    /\ reads w' = (reads w ++ [(cur, r)])%list
    /\ scan_results (self w') = Spec.note cur r (scan_results (self w))
    /\ match o with
       | Ret _ => exists x, r = Ret x
       | Raise _ => Spec.may_stop p rc r
       end
    /\ (Spec.quiet p -> o = Ret tt).
Proof.
  intros Hp. unfold scan_iteration, mbind, M_bind.
  destruct (read_single_address_spec p cur w)
    as (o1 & w1 & evs & E & Hr & _ & Hsr & Hok & _).
  rewrite E.
  assert (Hprog : forall w2 (r : option (list byte)),
            reads w2 = (reads w ++ [(cur, Ret r)])%list ->
            scan_results (self w2) = Spec.note cur (Ret r) (scan_results (self w)) ->
            exists o w' r',
              progress p rc total w2 = (o, w')
              /\ reads w' = (reads w ++ [(cur, r')])%list
              /\ scan_results (self w') = Spec.note cur r' (scan_results (self w))
              /\ match o with
                 | Ret _ => exists x, r' = Ret x
                 | Raise _ => Spec.may_stop p rc r'
                 end
              /\ (Spec.quiet p -> o = Ret tt)).
  { intros w2 r Hr2 Hs2.
    destruct (progress_spec p rc total w2 Hp) as (o2 & E2 & Hfail & Hcalm).
    exists o2, w2, (Ret r). split; [exact E2|]. split; [exact Hr2|].
    split; [exact Hs2|]. split.
    - destruct o2 as [u|e0]; [eauto|].
      destruct r as [d|]; simpl; [right|]; exact Hfail.
    - intros (_ & _ & _ & _ & Ht & _). exact (Hcalm Ht). }
  destruct o1 as [[d|]|e0].
  - unfold Spec.note in *. unfold Spec.storedb in *.
    destruct (length d <? 4)%nat eqn:El; simpl.
    + apply (Hprog w1 (Some d)); [exact Hr|]. rewrite El. exact Hsr.
    + destruct (bytes_eqb d NULL_PATTERN) eqn:Eb; simpl.
      * apply (Hprog w1 (Some d)); [exact Hr|]. rewrite El, Eb. exact Hsr.
      * assert (Hst : Spec.stored d).
        { apply storedb_stored. unfold Spec.storedb. rewrite El, Eb. reflexivity. }
        unfold store_discovery, file_append, console_out, modify_self, emit, raise,
          mbind, mret, M_bind, M_ret.
        destruct (console p) eqn:Ec; simpl.
        -- destruct (disk p) eqn:Ed; simpl.
           ++ apply (Hprog _ (Some d)); [exact Hr|]. simpl. rewrite El, Eb, Hsr. reflexivity.
           ++ do 2 eexists. exists (Ret (Some d)). split; [reflexivity|]. simpl.
              rewrite El, Eb, Hsr. simpl.
              split; [exact Hr|]. split; [reflexivity|].
              split; [left; split; [exact Hst|right; congruence]|].
              intros (_ & _ & H & _). congruence.
           ++ do 2 eexists. exists (Ret (Some d)). split; [reflexivity|]. simpl.
              rewrite El, Eb, Hsr. simpl.
              split; [exact Hr|]. split; [reflexivity|].
              split; [left; split; [exact Hst|right; congruence]|].
              intros (_ & _ & H & _). congruence.
        -- do 2 eexists. exists (Ret (Some d)). split; [reflexivity|]. simpl.
           rewrite El, Eb, Hsr. simpl.
           split; [exact Hr|]. split; [reflexivity|].
           split; [left; split; [exact Hst|left; congruence]|].
           intros (_ & _ & _ & H & _). congruence.
        -- do 2 eexists. exists (Ret (Some d)). split; [reflexivity|]. simpl.
           rewrite El, Eb, Hsr. simpl.
           split; [exact Hr|]. split; [reflexivity|].
           split; [left; split; [exact Hst|left; congruence]|].
           intros (_ & _ & _ & H & _). congruence.
  - simpl. apply (Hprog w1 None); [exact Hr|exact Hsr].
  - exists (Raise e0), w1, (Raise e0). simpl. repeat split; auto.
    intros (Hu & He & _ & _ & _ & Hn). discriminate (Hok Hu He Hn).
Qed.

#[local] Arguments scan_iteration : simpl never.

Lemma scan_loop_spec fuel : forall env e step total cur rc w,
  1 <= step ->
  e - cur <= Z.of_nat fuel ->
  (forall n, rc < n -> cur + (n - rc - 1) * step < e -> Spec.progress_ok n total) ->
  exists o w' new,
    scan_loop fuel env e step total cur rc w = (o, w')
    /\ reads w' = (reads w ++ new)%list
    /\ scan_results (self w') = Spec.discoveries new (scan_results (self w))
    /\ Spec.sweep_trace env e step cur rc new
         (match o with Ret _ => true | Raise _ => false end)
    /\ ((forall n, Spec.quiet (env n)) -> o = Ret tt).
Proof.
  induction fuel as [|fuel IH]; intros env e step total cur rc w Hstep Hfuel Hprog.
  - exists (Ret tt), w, []. simpl. rewrite app_nil_r.
    repeat split; auto. lia.
  - simpl. destruct (Z.ltb_spec cur e) as [Hlt|Hge].
    + unfold mbind, M_bind.
      assert (Hp1 : Spec.progress_ok (rc + 1) total).
      { apply Hprog; [lia|]. replace (rc + 1 - rc - 1) with 0 by lia. lia. }
      destruct (scan_iteration_spec (env (rc + 1)) total cur (rc + 1) w Hp1)
        as (o1 & w1 & r & E1 & Hr1 & Hs1 & Ho1 & Hq1).
      rewrite E1. destruct o1 as [[]|e0].
      * destruct (IH env e step total (cur + step) (rc + 1) w1) as
          (o2 & w2 & new2 & E2 & Hr2 & Hs2 & Ht2 & Hq2); [lia|lia| |].
        { intros n Hn Hlt'. apply Hprog; [lia|].
          replace (cur + (n - rc - 1) * step)
            with (cur + step + (n - (rc + 1) - 1) * step) by ring. exact Hlt'. }
        exists o2, w2, ((cur, r) :: new2). rewrite E2.
        split; [reflexivity|]. rewrite Hr2, Hr1, Hs2, Hs1.
        split; [rewrite <- app_assoc; reflexivity|].
        split; [reflexivity|]. split; [|exact Hq2].
        simpl. split; [reflexivity|]. split; [exact Hlt|]. left. auto.
      * exists (Raise e0), w1, [(cur, r)]. rewrite Hr1, Hs1.
        split; [reflexivity|]. split; [reflexivity|]. split; [reflexivity|].
        split; [simpl; split; [reflexivity|]; split; [exact Hlt|]; right; auto|].
        intros Hq. discriminate (Hq1 (Hq _)).
    + exists (Ret tt), w, []. rewrite app_nil_r. simpl. repeat split; auto.
Qed.

Lemma sweep_lower n : forall start step a,
  1 <= step -> In a (Spec.sweep n start step) -> start <= a.
Proof.
  induction n as [|n IH]; intros start step a Hs; simpl; [intros []|].
  intros [<-|H]; [lia|]. apply IH in H; lia.
Qed.


Lemma sweep_NoDup n : forall start step,
  1 <= step -> NoDup (Spec.sweep n start step).
Proof.
  induction n as [|n IH]; intros start step Hs; simpl; constructor; auto.
  rewrite list_elem_of_In. intros Ha. apply sweep_lower in Ha; lia.
Qed.

Lemma sweep_trace_addresses env e step new : forall cur n c,
  Spec.sweep_trace env e step cur n new c ->
  map fst new = Spec.sweep (length new) cur step
  /\ Forall (fun a => a < e) (map fst new)
  /\ (c = true ->
      e <= cur + Z.of_nat (length new) * step
      /\ Forall (fun ar => exists x, snd ar = Ret x) new).
Proof.
  induction new as [|[a r] new IH]; intros cur n c; simpl.
  - intros [He Hc]. repeat split; auto. lia.
  - intros (-> & Hlt & [[Hr Ht]|(-> & -> & _)]).
    + destruct (IH _ _ _ Ht) as (Hm & Hf & Hc).
      split; [f_equal; exact Hm|]. split; [constructor; auto|].
      intros E. destruct (Hc E) as [Hle Hall]. split; [lia|].
      constructor; auto.
    + repeat split; auto; discriminate.
Qed.

Lemma sweep_trace_continues env e step new : forall cur n c (i : nat) a,
  Spec.sweep_trace env e step cur n new c ->
  new !! i = Some (a, Ret None) ->
  ~ Spec.ticker_fails (env (n + Z.of_nat (S i))) (n + Z.of_nat (S i)) ->
  a + step < e ->
  exists r, new !! S i = Some (a + step, r).
Proof.
  induction new as [|[a0 r0] new IH]; intros cur n c i a; simpl; [discriminate|].
  intros (-> & Hlt & Hcase) Hi Hcalm Hnext.
  destruct i as [|i]; simpl in *.
  - injection Hi as -> ->.
    destruct Hcase as [[_ Ht]|(_ & _ & Hstop)]; [|contradiction].
    destruct new as [|[a1 r1] new]; simpl in Ht.
    + lia.
    + destruct Ht as (-> & _). eauto.
  - destruct Hcase as [[_ Ht]|(-> & _)]; [|discriminate].
    eapply IH; eauto.
    replace (n + 1 + Z.of_nat (S i)) with (n + Z.of_nat (S (S i))) by lia.
    exact Hcalm.
Qed.

Lemma discoveries_other new : forall (m : gmap Z string) a,
  ~ In a (map fst new) -> Spec.discoveries new m !! a = m !! a.
Proof.
  induction new as [|[a0 r0] new IH]; intros m a Hn; simpl; [reflexivity|].
  simpl in Hn. rewrite IH by tauto.
  unfold Spec.note. destruct r0 as [[d|]|]; try reflexivity.
  destruct (Spec.storedb d); [|reflexivity].
  apply lookup_insert_ne. tauto.
Qed.

Lemma discoveries_lookup new : forall (m : gmap Z string) a v,
  NoDup (map fst new) ->
  (forall a', In a' (map fst new) -> m !! a' = None) ->
  Spec.discoveries new m !! a = Some v
  <-> (exists d, In (a, Ret (Some d)) new /\ Spec.stored d /\ v = Fmt.hex_join d)
      \/ m !! a = Some v.
Proof.
  induction new as [|[a0 r0] new IH]; intros m a v Hnd Hm; simpl.
  - split; [auto|]. intros [(d & [] & _)|H]; exact H.
  - simpl in Hnd. apply NoDup_cons in Hnd as [Hn0 Hnd].
    rewrite list_elem_of_In in Hn0. simpl in Hm.
    assert (Hm0 : m !! a0 = None) by auto.
    rewrite IH; [|exact Hnd|].
    + unfold Spec.note. destruct r0 as [[d|]|e0].
      * destruct (Spec.storedb d) eqn:Es.
        -- apply storedb_stored in Es.
           destruct (decide (a0 = a)) as [->|Hne].
           ++ rewrite lookup_insert_eq. split.
              ** intros [(d' & Hin & _)|H].
                 --- exfalso. apply Hn0. apply (in_map fst) in Hin. exact Hin.
                 --- injection H as <-. left. exists d. auto.
              ** intros [(d' & [H|Hin] & Hst & ->)|H].
                 --- injection H as <-. auto.
                 --- exfalso. apply Hn0. apply (in_map fst) in Hin. exact Hin.
                 --- congruence.
           ++ rewrite lookup_insert_ne by exact Hne. split.
              ** intros [(d' & Hin & H)|H]; [left; exists d'; auto|auto].
              ** intros [(d' & [H|Hin] & H')|H]; [congruence|left; exists d'; auto|auto].
        -- assert (Hns : ~ Spec.stored d).
           { intros H. apply storedb_stored in H. congruence. }
           split.
           ++ intros [(d' & Hin & H)|H]; [left; exists d'; auto|auto].
           ++ intros [(d' & [H|Hin] & H' & H'')|H];
                [injection H as _ <-; contradiction|left; exists d'; auto|auto].
      * split.
        -- intros [(d' & Hin & H)|H]; [left; exists d'; auto|auto].
        -- intros [(d' & [H|Hin] & H')|H]; [discriminate H|left; exists d'; auto|auto].
      * split.
        -- intros [(d' & Hin & H)|H]; [left; exists d'; auto|auto].
        -- intros [(d' & [H|Hin] & H')|H]; [discriminate H|left; exists d'; auto|auto].
    + intros a' Ha'. assert (a0 <> a') by (intros ->; contradiction).
      unfold Spec.note. destruct r0 as [[d|]|e0]; auto.
      destruct (Spec.storedb d); auto.
      rewrite lookup_insert_ne by assumption. auto.
Qed.

Lemma first_progress start e step n :
  1 <= step -> 0 < n -> start + (n - 0 - 1) * step < e ->
  Spec.progress_ok n ((e - start) / step).
Proof.
  intros Hs Hn Hlt Hmod E.
  assert (256 <= n).
  { apply Z.mod_divide in Hmod; [|lia]. destruct Hmod as [k ->]. lia. }
  assert (1 <= (e - start) / step); [|lia].
  apply Z.div_le_lower_bound; nia.
Qed.

#[local] Arguments scan_loop : simpl never.

Ltac scan_memory_case Hr Hd Ht :=
  split; [reflexivity|];
  split; [exact Hr|];
  split; [exact Hd|];
  split; [intros _; exact Ht|];
  split; [intros H; exfalso; apply H; reflexivity|];
  split; [intros _ H1 H2; first [discriminate H1 | discriminate H2 | reflexivity]|];
  split; [intros _ H1 H2; first [discriminate H1 | discriminate H2 | reflexivity]|];
  split; [intros m H; first [discriminate H | injection H as <-; reflexivity]|].

Lemma scan_memory_spec con env start e step w :
  exists (completed : bool) o w' new,
    scan_memory con env start e step w = (o, w')
    /\ reads w' = (reads w ++ new)%list
    /\ scan_results (self w') = Spec.discoveries new ∅
    /\ (banner con = ConsoleOk ->
        Spec.sweep_trace env e (if step <? 1 then 4 else step) start 0 new completed)
    /\ (banner con <> ConsoleOk -> new = [] /\ exists e0, o = Raise e0)
    /\ (banner con = ConsoleOk -> on_interrupt con = ConsoleOk ->
        on_error con = ConsoleOk -> o = Ret (scan_results (self w')))
    /\ (banner con = ConsoleOk -> summary con = ConsoleOk -> completed = true ->
        o = Ret (scan_results (self w')))
    /\ (forall m, o = Ret m -> m = scan_results (self w'))
    /\ ((forall n, Spec.quiet (env n)) -> banner con = ConsoleOk -> completed = true).
Proof.
  set (step' := if step <? 1 then 4 else step).
  assert (Hs : 1 <= step').
  { unfold step'. destruct (Z.ltb_spec step 1); lia. }
  unfold scan_memory. fold step'.
  unfold try_except, modify_self, get_self, console_out, raise, mbind, mret,
    M_bind, M_ret.
  set (w0 := {| self := set_scan_results ∅ (self w); io := io w; reads := reads w |}).
  destruct con as [b s oi oe]; simpl.
  destruct b as [|msg|].
  - destruct (scan_loop_spec (Z.to_nat (e - start)) env e step' ((e - start) / step')
                start 0 w0 Hs) as (o & w' & new & E & Hr & Hd & Ht & Hq).
    { lia. }
    { intros n Hn Hlt. apply first_progress; auto. }
    rewrite E.
    exists (match o with Ret _ => true | Raise _ => false end).
    assert (Hc : (forall n, Spec.quiet (env n)) -> ConsoleOk = ConsoleOk ->
                 match o with Ret _ => true | Raise _ => false end = true).
    { intros H _. rewrite (Hq H). reflexivity. }
    destruct o as [[]|e0].
    + destruct s as [|msg|], oi as [|msgi|], oe as [|msge|];
        (eexists; exists w', new; scan_memory_case Hr Hd Ht; exact Hc).
    + destruct e0, oi as [|msgi|], oe as [|msge|];
        (eexists; exists w', new; scan_memory_case Hr Hd Ht; exact Hc).
  - exists false. eexists. exists w0, []. split; [reflexivity|].
    split; [symmetry; apply app_nil_r|]. split; [reflexivity|].
    split; [discriminate|]. split; [eauto|].
    split; [discriminate|]. split; [discriminate|].
    split; [discriminate|]. intros _ H; discriminate H.
  - exists false. eexists. exists w0, []. split; [reflexivity|].
    split; [symmetry; apply app_nil_r|]. split; [reflexivity|].
    split; [discriminate|]. split; [eauto|].
    split; [discriminate|]. split; [discriminate|].
    split; [discriminate|]. intros _ H; discriminate H.
Qed.

Lemma native_length s p d : Spec.native s p = Some d -> length d = 4%nat.
Proof.
  unfold Spec.native. destruct (Spec.native_available s); [|discriminate].
  destruct (usb p) as [| | |response|]; try discriminate.
  destruct (Spec.first_byte_is x04 response); [discriminate|].
  destruct (Nat.leb_spec 4 (length response)) as [Hlen|Hlen]; [|discriminate].
  intros Hd. injection Hd as <-. rewrite length_firstn. lia.
Qed.

(** The entries of the dictionary of a sweep are the stored reads. *)
Lemma discoveries_of_sweep new start step a v :
  1 <= step ->
  map fst new = Spec.sweep (length new) start step ->
  Spec.discoveries new ∅ !! a = Some v
  <-> exists d, In (a, Ret (Some d)) new /\ Spec.stored d /\ v = Fmt.hex_join d.
Proof.
  intros Hs Hm. rewrite discoveries_lookup.
  - rewrite lookup_empty. split; [intros [H|H]; [exact H|discriminate H]|auto].
  - rewrite Hm. apply sweep_NoDup. exact Hs.
  - intros. apply lookup_empty.
Qed.

(** C8: when nothing interrupts the call, [_read_single_address] returns
    what the native channel yields if it succeeds (four bytes), and
    otherwise what the secondary channel yields; the native channel,
    when available, is attempted first; the helper is run exactly when
    the native channel failed and the helper is configured; a response
    starting with 0x04, a timeout and a short response are native
    failures; the result is [None] exactly when both channels yield
    nothing. *)
Theorem C8_native_first_then_secondary (p : probe) (address : Z) (w : world) :
  usb p <> UsbInterrupted ->
  edl p <> EdlInterrupted ->
  naps p = None ->
  exists w' evs,
    _read_single_address p address w = (Ret (Spec.read4 (self w) p), w')
    /\ io w' = (io w ++ evs)%list
    /\ (Spec.native_available (self w) = true ->
        exists rest, evs = UsbWrite address :: rest)
    /\ (In (EdlRun address) evs <->
        Spec.native (self w) p = None /\ Spec.secondary_configured (self w) = true)
    /\ (forall d, Spec.native (self w) p = Some d ->
                  Spec.read4 (self w) p = Some d /\ length d = 4%nat)
    /\ (Spec.native (self w) p = None ->
        Spec.read4 (self w) p = Spec.secondary (self w) p)
    /\ (Spec.read4 (self w) p = None <->
        Spec.native (self w) p = None /\ Spec.secondary (self w) p = None)
    /\ (forall rest, usb p = UsbResponds (x04 :: rest) -> Spec.native (self w) p = None)
    /\ (usb p = UsbReadTimeout -> Spec.native (self w) p = None)
    /\ (forall r, usb p = UsbResponds r -> (length r < 4)%nat ->
                  Spec.native (self w) p = None).
Proof.
  intros Hu He Hn.
  destruct (read_single_address_spec p address w)
    as (o & w' & evs & E & _ & Hio & _ & Hok & Hfirst & Hedl).
  rewrite (Hok Hu He Hn) in E. exists w', evs.
  split; [exact E|]. split; [exact Hio|]. split; [exact Hfirst|].
  split; [exact (Hedl Hu Hn)|].
  unfold Spec.read4.
  split.
  { intros d Hd. rewrite Hd. split; [reflexivity|]. exact (native_length _ _ _ Hd). }
  split.
  { intros ->. reflexivity. }
  split.
  { destruct (Spec.native (self w) p); split.
    - discriminate.
    - intros [H _]; discriminate H.
    - auto.
    - intros [_ H]; exact H. }
  unfold Spec.native. destruct (Spec.native_available (self w)); [|auto].
  split; [intros rest ->; reflexivity|].
  split; [intros ->; reflexivity|].
  intros r -> Hlen. destruct (Spec.first_byte_is x04 r); [reflexivity|].
  destruct (Nat.leb_spec 4 (length r)); [lia|reflexivity].
Qed.

Lemma C8_native_first_then_secondary_witness :
  exists w',
    _read_single_address Example.degraded_probe 0x00701000 Example.dual_scanner
    = (Ret (Some [x0a; x0b; x0c; x0d]), w')
    /\ In (EdlRun 0x00701000) (io w').
Proof.
  destruct (C8_native_first_then_secondary Example.degraded_probe 0x00701000
              Example.dual_scanner)
    as (w' & evs & E & Hio & _ & Hedl & _).
  - discriminate.
  - discriminate.
  - reflexivity.
  - exists w'. split; [exact E|].
    rewrite Hio. apply in_or_app. right. apply Hedl. split; reflexivity.
Defined.




(** C9 (counterexample): an exception does reach the caller of
    [scan_memory] when the console fails outside the [try] or inside an
    [except] clause: the banner that cannot be encoded; the message of
    the interruption on a closed console, after two discoveries that the
    caller then does not receive; the message of the error on a closed
    console, after the results file could not be written. A read that
    failed is the last one of the sweep when the progress line that
    follows it cannot be printed: of 300 addresses, 256 are read. *)
Lemma C9_console_failure_reaches_the_caller :
  fst (scan_memory Example2.ascii_console Example.steady_env
         0x00700000 0x00700010 4 Example.scanner)
  = Raise (OtherException "'ascii' codec can't encode character")
  /\ (fst (scan_memory Example2.closed_console Example2.ctrl_c_env
             0x00700000 0x00700010 4 Example.scanner)
      = Raise (OtherException "Broken pipe")
      /\ size (scan_results
                 (self (snd (scan_memory Example2.closed_console Example2.ctrl_c_env
                               0x00700000 0x00700010 4 Example.scanner)))) = 2%nat)
  /\ fst (scan_memory Example2.closed_console Example2.read_only_disk_env
            0x00700000 0x00700010 4 Example.scanner)
     = Raise (OtherException "Broken pipe")
  /\ (last (reads (snd (scan_memory Example.terminal Example2.stalling_env
                          0x00700000 0x007004b0 4 Example.scanner)))
      = Some (0x007003fc, Ret None)
      /\ length (reads (snd (scan_memory Example.terminal Example2.stalling_env
                               0x00700000 0x007004b0 4 Example.scanner))) = 256%nat
      /\ 0x007003fc + 4 < 0x007004b0).
Proof.
  split; [vm_compute; reflexivity|].
  split; [split; vm_compute; reflexivity|].
  split; [vm_compute; reflexivity|].
  split; [vm_compute; reflexivity|].
  split; [vm_compute; reflexivity|lia].
Qed.

(** C9 (amended): when the console works before the [try] and inside the
    [except] clauses, then whatever else the outside world does (failed
    reads, interruptions by the user, exceptions from the results file
    or from the console during the sweep), [scan_memory] returns
    normally and what it returns is exactly the discoveries of the reads
    made so far; those reads are at consecutive addresses of the sweep,
    and after a read that failed the next address of the range is read,
    unless the progress line due after it cannot be printed. *)
Theorem C9_scan_memory_returns_what_it_found
    (con : scan_console) (env : Z -> probe) (start_addr end_addr step : Z) (w : world) :
  banner con = ConsoleOk ->
  on_interrupt con = ConsoleOk ->
  on_error con = ConsoleOk ->
  exists w' new,
    scan_memory con env start_addr end_addr step w = (Ret (scan_results (self w')), w')
    /\ reads w' = (reads w ++ new)%list
    /\ scan_results (self w') = Spec.discoveries new ∅
    /\ (forall a v,
          scan_results (self w') !! a = Some v <->
          exists d, In (a, Ret (Some d)) new /\ Spec.stored d /\ v = Fmt.hex_join d)
    /\ map fst new = Spec.sweep (length new) start_addr (if step <? 1 then 4 else step)
    /\ Forall (fun a => a < end_addr) (map fst new)
    /\ (forall (i : nat) a,
          new !! i = Some (a, Ret None) ->
          ~ Spec.ticker_fails (env (Z.of_nat (S i))) (Z.of_nat (S i)) ->
          a + (if step <? 1 then 4 else step) < end_addr ->
          exists r, new !! S i = Some (a + (if step <? 1 then 4 else step), r)).
Proof.
  intros Hb Hi He.
  assert (Hs : 1 <= (if step <? 1 then 4 else step))
    by (destruct (Z.ltb_spec step 1); lia).
  destruct (scan_memory_spec con env start_addr end_addr step w)
    as (c & o & w' & new & E & Hr & Hd & Ht & _ & Hret & _).
  specialize (Ht Hb). rewrite (Hret Hb Hi He) in E.
  destruct (sweep_trace_addresses _ _ _ _ _ _ _ Ht) as (Hm & Hlt & _).
  exists w', new.
  split; [exact E|]. split; [exact Hr|]. split; [exact Hd|].
  split; [intros a v; rewrite Hd; exact (discoveries_of_sweep _ _ _ a v Hs Hm)|].
  split; [exact Hm|]. split; [exact Hlt|].
  intros i a Hget Hcalm Hnext.
  exact (sweep_trace_continues _ _ _ _ _ _ _ _ _ Ht Hget Hcalm Hnext).
Qed.

(** Three discoveries, then an interruption during the fifth read: the
    three entries are returned. *)
Lemma C9_scan_memory_returns_what_it_found_witness :
  fst (scan_memory Example.terminal Example.interrupted_env 0x00700000 0x00700100 4
         Example.scanner)
  = Ret (<[0x0070000c := "10 20 30 40"]>
           (<[0x00700008 := "de ad be ef"]>
              (<[0x00700000 := "01 02 03 04"]> ∅)))
  /\ last (reads (snd (scan_memory Example.terminal Example.interrupted_env
                         0x00700000 0x00700100 4 Example.scanner)))
     = Some (0x00700010, Raise KeyboardInterrupt).
Proof.
  destruct (C9_scan_memory_returns_what_it_found Example.terminal
              Example.interrupted_env 0x00700000 0x00700100 4 Example.scanner
              eq_refl eq_refl eq_refl)
    as (w' & new & E & _).
  rewrite E. pose proof E as E'. vm_compute in E'. injection E' as _ <-.
  split; vm_compute; reflexivity.
Defined.

(** C3 (counterexample to the step): in a scan with step 8, a response
    starting with 0x04 at 0x00700000 ends in the default branch, and the
    action it returns has [next_address = 0x00700004] and [skip_size = 4],
    not the address plus 8 and 8. *)
Lemma C3_step_is_not_used :
  Spec.takes_default 0x04 USBErrorRecovery.init
  /\ Spec.logged_actions
       (snd (scan_memory Example.terminal Example.nonstandard_env
               0x00700000 0x00700008 8 Example.scanner))
     = [ {| action_ := skip_address; next_address := 0x00700004; skip_size := Some 4;
            delay_ms := None; reason := "graceful_skip" |} ]
  /\ 0x00700004 <> 0x00700000 + 8
  /\ Some 4 <> Some 8.
Proof.
  split; [left; simpl; lia|].
  split; [vm_compute; reflexivity|].
  split; [lia|discriminate].
Qed.

(** * Further properties *)

(** ** Byte strings *)

Lemma slice_length (s : list byte) (lo hi : Z) :
  0 <= lo -> lo <= hi -> hi <= Z.of_nat (length s) ->
  length (Bytes.slice s lo hi) = Z.to_nat (hi - lo).
Proof.
  intros H0 H1 H2. unfold Bytes.slice. rewrite length_firstn, length_skipn. lia.
Qed.

Lemma slice_0 (s : list byte) (hi : Z) : Bytes.slice s 0 hi = firstn (Z.to_nat hi) s.
Proof. unfold Bytes.slice. rewrite Z.sub_0_r. reflexivity. Qed.

Lemma unpack_le32_range (bs : list byte) :
  length bs = 4%nat ->
  exists v, Bytes.unpack_le32 bs = Some v /\ 0 <= v < 4294967296.
Proof.
  destruct bs as [|b0 [|b1 [|b2 [|b3 [|? ?]]]]]; try discriminate. intros _.
  eexists. split; [reflexivity|].
  pose proof (Byte.to_N_bounded b0). pose proof (Byte.to_N_bounded b1).
  pose proof (Byte.to_N_bounded b2). pose proof (Byte.to_N_bounded b3). lia.
Qed.

Lemma field_range (s : list byte) (lo : Z) :
  0 <= lo -> lo + 4 <= Z.of_nat (length s) ->
  exists v, Bytes.unpack_le32 (Bytes.slice s lo (lo + 4)) = Some v
            /\ 0 <= v < 4294967296.
Proof.
  intros H0 H1. apply unpack_le32_range. rewrite slice_length by lia. lia.
Qed.

Lemma bytes_eqb_false (a b : list byte) :
  QFPROMExtractor.bytes_eqb a b = false <-> a <> b.
Proof.
  split.
  - intros E H. apply bytes_eqb_eq in H. congruence.
  - intros H. destruct (QFPROMExtractor.bytes_eqb a b) eqn:E; [|reflexivity].
    apply bytes_eqb_eq in E. contradiction.
Qed.

(** ** SLA certificate *)

#[local] Arguments Bytes.slice : simpl never.
#[local] Arguments Bytes.unpack_le32 : simpl never.
#[local] Arguments Z.of_nat : simpl never.
#[local] Arguments Z.to_nat : simpl never.

Lemma parse_result (data : list byte) :
  (fst (SLACertificate.parse (SLACertificate.init data)) = true
   <-> (8 <= length data)%nat /\ firstn 4 data = SLACertificate.SLA_MAGIC)
  /\ (fst (SLACertificate.parse (SLACertificate.init data)) = false ->
      SLACertificate.version (snd (SLACertificate.parse (SLACertificate.init data))) = None
      /\ SLACertificate.serial (snd (SLACertificate.parse (SLACertificate.init data))) = None
      /\ SLACertificate.signature (snd (SLACertificate.parse (SLACertificate.init data)))
         = None).
Proof.
  unfold SLACertificate.parse. simpl.
  destruct (Z.ltb_spec (Z.of_nat (length data)) 4) as [H4|H4]; simpl.
  { split; [|auto]. split; [discriminate|]. intros [H _]. lia. }
  rewrite slice_0. change (Z.to_nat 4) with 4%nat.
  destruct (QFPROMExtractor.bytes_eqb (firstn 4 data) SLACertificate.SLA_MAGIC) eqn:Em;
    simpl.
  2:{ apply bytes_eqb_false in Em. split; [|auto].
      split; [discriminate|]. intros [_ H]. contradiction. }
  apply bytes_eqb_eq in Em.
  destruct (Z.ltb_spec (Z.of_nat (length data)) 8) as [H8|H8]; simpl.
  { split; [|auto]. split; [discriminate|]. intros [H _]. lia. }
  destruct (field_range data 4) as (v & Ev & _); [lia|lia|].
  change (4 + 4) with 8 in Ev. rewrite Ev.
  destruct (Z.leb_spec (8 + 4) (Z.of_nat (length data))) as [H12|H12].
  - destruct (field_range data 8) as (sn & Es & _); [lia|lia|].
    rewrite Es. simpl. split; [|discriminate]. split; [intros _; split; [lia|exact Em]|auto].
  - simpl. split; [|discriminate]. split; [intros _; split; [lia|exact Em]|auto].
Qed.

(** X1: [parse] accepts a certificate exactly when it has at least
    eight bytes and starts with the magic [SLA\0]; a rejected one keeps
    its version, serial and signature unset. *)
Theorem X1_parse_accepts_iff (data : list byte) :
  (fst (SLACertificate.parse (SLACertificate.init data)) = true
   <-> (8 <= length data)%nat /\ firstn 4 data = SLACertificate.SLA_MAGIC)
  /\ (fst (SLACertificate.parse (SLACertificate.init data)) = false ->
      SLACertificate.version (snd (SLACertificate.parse (SLACertificate.init data))) = None
      /\ SLACertificate.serial (snd (SLACertificate.parse (SLACertificate.init data))) = None
      /\ SLACertificate.signature (snd (SLACertificate.parse (SLACertificate.init data)))
         = None).
Proof. exact (parse_result data). Qed.

Lemma parse_accepted (data : list byte) :
  firstn 4 data = SLACertificate.SLA_MAGIC ->
  (8 <= length data)%nat ->
  exists v,
    Bytes.unpack_le32 (Bytes.slice data 4 8) = Some v
    /\ 0 <= v < 4294967296
    /\ ((12 <= length data)%nat ->
        exists sn,
          Bytes.unpack_le32 (Bytes.slice data 8 12) = Some sn
          /\ 0 <= sn < 4294967296
          /\ SLACertificate.parse (SLACertificate.init data)
             = (true,
                let c := SLACertificate.set_serial sn
                           (SLACertificate.set_version v
                              (SLACertificate.set_magic SLACertificate.SLA_MAGIC
                                 (SLACertificate.init data))) in
                if (12 <? length data)%nat
                then SLACertificate.set_signature (skipn 12 data) c else c))
    /\ ((length data < 12)%nat ->
        SLACertificate.parse (SLACertificate.init data)
        = (true,
           let c := SLACertificate.set_version v
                      (SLACertificate.set_magic SLACertificate.SLA_MAGIC
                         (SLACertificate.init data)) in
           if (8 <? length data)%nat
           then SLACertificate.set_signature (skipn 8 data) c else c)).
Proof.
  intros Em H8.
  destruct (field_range data 4) as (v & Ev & Hv); [lia|lia|].
  change (4 + 4) with 8 in Ev. exists v. split; [exact Ev|]. split; [exact Hv|].
  assert (Eb : QFPROMExtractor.bytes_eqb (Bytes.slice data 0 4) SLACertificate.SLA_MAGIC
               = true).
  { rewrite slice_0. apply bytes_eqb_eq. exact Em. }
  assert (Es : Bytes.slice data 0 4 = SLACertificate.SLA_MAGIC).
  { rewrite slice_0. exact Em. }
  unfold SLACertificate.parse. simpl.
  destruct (Z.ltb_spec (Z.of_nat (length data)) 4); [lia|]. simpl.
  rewrite Eb. simpl.
  destruct (Z.ltb_spec (Z.of_nat (length data)) 8); [lia|]. simpl. rewrite Ev.
  split.
  - intros H12. destruct (field_range data 8) as (sn & Esn & Hsn); [lia|lia|].
    change (8 + 4) with 12 in *. exists sn. split; [exact Esn|]. split; [exact Hsn|].
    destruct (Z.leb_spec 12 (Z.of_nat (length data))); [|lia].
    rewrite Esn. simpl. rewrite Es.
    destruct (Z.ltb_spec 12 (Z.of_nat (length data))),
             (Nat.ltb_spec 12 (length data)); try lia; reflexivity.
  - intros H12. change (8 + 4) with 12.
    destruct (Z.leb_spec 12 (Z.of_nat (length data))); [lia|]. simpl. rewrite Es.
    destruct (Z.ltb_spec 8 (Z.of_nat (length data))),
             (Nat.ltb_spec 8 (length data)); try lia; reflexivity.
Qed.

(** X2: in an accepted certificate the version is the little-endian word
    of bytes 4..8; with twelve bytes or more the serial is the word of
    bytes 8..12 and the signature is everything after it; with fewer
    than twelve, no serial is read and the bytes after the version are
    taken as the signature. [to_dict] reports the signature size
    accordingly. *)
Theorem X2_parse_layout (data : list byte) :
  firstn 4 data = SLACertificate.SLA_MAGIC ->
  (8 <= length data)%nat ->
  let c := snd (SLACertificate.parse (SLACertificate.init data)) in
  SLACertificate.magic c = Some SLACertificate.SLA_MAGIC
  /\ SLACertificate.version c = Bytes.unpack_le32 (Bytes.slice data 4 8)
  /\ (exists v, SLACertificate.version c = Some v /\ 0 <= v < 4294967296)
  /\ ((12 <= length data)%nat ->
      SLACertificate.serial c = Bytes.unpack_le32 (Bytes.slice data 8 12)
      /\ (exists sn, SLACertificate.serial c = Some sn /\ 0 <= sn < 4294967296)
      /\ SLACertificate.signature c
         = (if (12 <? length data)%nat then Some (skipn 12 data) else None)
      /\ SLACertificate.d_signature_size (SLACertificate.to_dict c)
         = Z.of_nat (length data) - 12)
  /\ ((length data < 12)%nat ->
      SLACertificate.serial c = None
      /\ SLACertificate.signature c
         = (if (8 <? length data)%nat then Some (skipn 8 data) else None)
      /\ SLACertificate.d_signature_size (SLACertificate.to_dict c)
         = Z.of_nat (length data) - 8).
Proof.
  intros Em H8. cbv zeta.
  destruct (parse_accepted data Em H8) as (v & Ev & Hv & H12 & Hlt).
  destruct (Nat.le_gt_cases 12 (length data)) as [Hl|Hl].
  - destruct (H12 Hl) as (sn & Esn & Hsn & ->). clear H12 Hlt.
    assert (Hsz : forall l : list byte, length l = (length data - 12)%nat ->
              match l with [] => 0 | _ :: _ => Z.of_nat (length l) end
              = Z.of_nat (length data) - 12).
    { intros l El. destruct l; simpl in *; lia. }
    destruct (Nat.ltb_spec 12 (length data)); simpl; rewrite Ev, Esn;
      (split; [reflexivity|]); (split; [reflexivity|]); (split; [eauto|]);
      (split; [|intros; lia]); intros _;
      (split; [reflexivity|]); (split; [eauto|]); (split; [reflexivity|]).
    + apply Hsz. apply length_skipn.
    + lia.
  - rewrite (Hlt Hl). clear H12 Hlt.
    assert (Hsz : forall l : list byte, length l = (length data - 8)%nat ->
              match l with [] => 0 | _ :: _ => Z.of_nat (length l) end
              = Z.of_nat (length data) - 8).
    { intros l El. destruct l; simpl in *; lia. }
    destruct (Nat.ltb_spec 8 (length data)); simpl; rewrite Ev;
      (split; [reflexivity|]); (split; [reflexivity|]); (split; [eauto|]);
      (split; [intros; lia|]); intros _;
      (split; [reflexivity|]); (split; [reflexivity|]).
    + apply Hsz. apply length_skipn.
    + lia.
Qed.

Lemma X2_parse_layout_witness :
  let data := (SLACertificate.SLA_MAGIC
               ++ [x01; x00; x00; x00; x78; x56; x34; x12; xaa; xbb])%list in
  let c := snd (SLACertificate.parse (SLACertificate.init data)) in
  SLACertificate.version c = Some 1
  /\ SLACertificate.serial c = Some 0x12345678
  /\ SLACertificate.signature c = Some [xaa; xbb].
Proof.
  cbv zeta.
  destruct (X2_parse_layout
              (SLACertificate.SLA_MAGIC
               ++ [x01; x00; x00; x00; x78; x56; x34; x12; xaa; xbb])%list)
    as (_ & Hv & _ & H12 & _).
  - reflexivity.
  - simpl. lia.
  - destruct H12 as (Hs & _ & Hg & _); [simpl; lia|].
    rewrite Hv, Hs, Hg. repeat split.
Defined.

(** X3: a certificate whose serial word is zero is accepted, but
    [to_dict] shows its serial as absent, like that of a certificate too
    short to have one. *)
Theorem X3_zero_serial_is_reported_absent (v0 v1 v2 v3 : byte) (rest : list byte) :
  let data := (SLACertificate.SLA_MAGIC ++ [v0; v1; v2; v3; x00; x00; x00; x00] ++ rest)%list in
  let r := SLACertificate.parse (SLACertificate.init data) in
  fst r = true
  /\ SLACertificate.serial (snd r) = Some 0
  /\ SLACertificate.d_serial (SLACertificate.to_dict (snd r)) = None.
Proof.
  cbv zeta.
  set (data := (SLACertificate.SLA_MAGIC ++ [v0; v1; v2; v3; x00; x00; x00; x00] ++ rest)%list).
  assert (Em : firstn 4 data = SLACertificate.SLA_MAGIC) by reflexivity.
  assert (H12 : (12 <= length data)%nat) by (unfold data; simpl; lia).
  destruct (parse_accepted data Em ltac:(lia)) as (v & Ev & Hv & Hs & _).
  destruct (Hs H12) as (sn & Esn & _ & ->).
  assert (sn = 0) as -> by (unfold data in Esn; cbv in Esn; congruence).
  destruct (12 <? length data)%nat; simpl; repeat split.
Qed.

(** ** Boot partition *)

Lemma analyze_boot_header_accepted (image : list byte) :
  (2048 <= length image)%nat ->
  firstn 8 image = BootPartitionAnalyzer.BOOT_MAGIC ->
  exists ks ka rs ra ss sa ta ps,
    BootPartitionAnalyzer.field image 8 = Some ks /\ 0 <= ks < 4294967296
    /\ BootPartitionAnalyzer.field image 16 = Some rs /\ 0 <= rs < 4294967296
    /\ BootPartitionAnalyzer.field image 24 = Some ss /\ 0 <= ss < 4294967296
    /\ BootPartitionAnalyzer.field image 36 = Some ps /\ 0 <= ps < 4294967296
    /\ BootPartitionAnalyzer.analyze_boot_header image
       = Some {| BootPartitionAnalyzer.h_magic := "ANDROID!";
                 BootPartitionAnalyzer.kernel_size := ks;
                 BootPartitionAnalyzer.kernel_addr := Fmt.addr08 ka;
                 BootPartitionAnalyzer.ramdisk_size := rs;
                 BootPartitionAnalyzer.ramdisk_addr := Fmt.addr08 ra;
                 BootPartitionAnalyzer.second_size := ss;
                 BootPartitionAnalyzer.second_addr := Fmt.addr08 sa;
                 BootPartitionAnalyzer.tags_addr := Fmt.addr08 ta;
                 BootPartitionAnalyzer.page_size := ps |}.
Proof.
  intros Hlen Em. unfold BootPartitionAnalyzer.analyze_boot_header,
    BootPartitionAnalyzer.field.
  destruct (Z.ltb_spec (Z.of_nat (length image)) 2048); [lia|].
  rewrite slice_0. change (Z.to_nat 8) with 8%nat.
  apply bytes_eqb_eq in Em. rewrite Em. simpl negb. cbv iota.
  destruct (field_range image 8) as (ks & -> & Hks); [lia|lia|].
  destruct (field_range image 12) as (ka & -> & Hka); [lia|lia|].
  destruct (field_range image 16) as (rs & -> & Hrs); [lia|lia|].
  destruct (field_range image 20) as (ra & -> & Hra); [lia|lia|].
  destruct (field_range image 24) as (ss & -> & Hss); [lia|lia|].
  destruct (field_range image 28) as (sa & -> & Hsa); [lia|lia|].
  destruct (field_range image 32) as (ta & -> & Hta); [lia|lia|].
  destruct (field_range image 36) as (ps & -> & Hps); [lia|lia|].
  exists ks, ka, rs, ra, ss, sa, ta, ps. repeat split; auto; lia.
Qed.

Lemma analyze_boot_header_rejected (image : list byte) :
  (length image < 2048)%nat \/ firstn 8 image <> BootPartitionAnalyzer.BOOT_MAGIC ->
  BootPartitionAnalyzer.analyze_boot_header image = None.
Proof.
  intros H. unfold BootPartitionAnalyzer.analyze_boot_header.
  destruct (Z.ltb_spec (Z.of_nat (length image)) 2048); [reflexivity|].
  destruct H as [H|H]; [lia|].
  rewrite slice_0. change (Z.to_nat 8) with 8%nat.
  apply bytes_eqb_false in H. rewrite H. reflexivity.
Qed.

Lemma boot_header_fields (image : list byte) (h : BootPartitionAnalyzer.header) :
  BootPartitionAnalyzer.analyze_boot_header image = Some h ->
  (2048 <= length image)%nat
  /\ firstn 8 image = BootPartitionAnalyzer.BOOT_MAGIC
  /\ BootPartitionAnalyzer.field image 8 = Some (BootPartitionAnalyzer.kernel_size h)
  /\ BootPartitionAnalyzer.field image 16 = Some (BootPartitionAnalyzer.ramdisk_size h)
  /\ BootPartitionAnalyzer.field image 24 = Some (BootPartitionAnalyzer.second_size h)
  /\ BootPartitionAnalyzer.field image 36 = Some (BootPartitionAnalyzer.page_size h)
  /\ 0 <= BootPartitionAnalyzer.kernel_size h < 4294967296
  /\ 0 <= BootPartitionAnalyzer.ramdisk_size h < 4294967296
  /\ 0 <= BootPartitionAnalyzer.second_size h < 4294967296
  /\ 0 <= BootPartitionAnalyzer.page_size h < 4294967296.
Proof.
  intros Eh.
  destruct (Nat.le_gt_cases 2048 (length image)) as [Hl|Hl].
  - destruct (QFPROMExtractor.bytes_eqb (firstn 8 image)
                BootPartitionAnalyzer.BOOT_MAGIC) eqn:Em;
      [apply bytes_eqb_eq in Em|apply bytes_eqb_false in Em].
    + destruct (analyze_boot_header_accepted image Hl Em)
        as (ks & ka & rs & ra & ss & sa & ta & ps
            & Eks & Hks & Ers & Hrs & Ess & Hss & Eps & Hps & E).
      rewrite E in Eh. injection Eh as <-. simpl. repeat split; auto; lia.
    + rewrite (analyze_boot_header_rejected image (or_intror Em)) in Eh. discriminate.
  - rewrite (analyze_boot_header_rejected image (or_introl Hl)) in Eh. discriminate.
Qed.

(** X4: [analyze_boot_header] returns a header exactly for an image of
    at least 2048 bytes that starts with [ANDROID!]; the sizes it
    reports are the unsigned 32-bit words at offsets 8, 16, 24 and 36. *)
Theorem X4_boot_header_accepts_iff (image : list byte) :
  (is_Some (BootPartitionAnalyzer.analyze_boot_header image)
   <-> (2048 <= length image)%nat
       /\ firstn 8 image = BootPartitionAnalyzer.BOOT_MAGIC)
  /\ (forall h,
        BootPartitionAnalyzer.analyze_boot_header image = Some h ->
        BootPartitionAnalyzer.field image 8 = Some (BootPartitionAnalyzer.kernel_size h)
        /\ BootPartitionAnalyzer.field image 16 = Some (BootPartitionAnalyzer.ramdisk_size h)
        /\ BootPartitionAnalyzer.field image 24 = Some (BootPartitionAnalyzer.second_size h)
        /\ BootPartitionAnalyzer.field image 36 = Some (BootPartitionAnalyzer.page_size h)
        /\ 0 <= BootPartitionAnalyzer.kernel_size h < 4294967296
        /\ 0 <= BootPartitionAnalyzer.ramdisk_size h < 4294967296
        /\ 0 <= BootPartitionAnalyzer.second_size h < 4294967296
        /\ 0 <= BootPartitionAnalyzer.page_size h < 4294967296).
Proof.
  split.
  - split.
    + intros [h Eh]. destruct (boot_header_fields image h Eh) as (H1 & H2 & _). auto.
    + intros [Hl Em].
      destruct (analyze_boot_header_accepted image Hl Em)
        as (ks & ka & rs & ra & ss & sa & ta & ps & _ & _ & _ & _ & _ & _ & _ & _ & ->).
      eauto.
  - intros h Eh. destruct (boot_header_fields image h Eh) as (_ & _ & H). exact H.
Qed.

(** X5: [extract_kernel] does not look at the magic: on any image of at
    least twelve bytes whose output file can be written it returns
    [True] and writes the bytes from offset 2048 on, at most as many as
    the word at offset 8 says (none for an image of at most 2048 bytes);
    on a shorter image it returns [False] and writes nothing. *)
Theorem X5_extract_kernel_ignores_magic (image : list byte) :
  ((12 <= length image)%nat ->
   exists ks,
     BootPartitionAnalyzer.field image 8 = Some ks
     /\ BootPartitionAnalyzer.extract_kernel true image
        = (true, Some (firstn (Z.to_nat ks) (skipn 2048 image)))
     /\ length (firstn (Z.to_nat ks) (skipn 2048 image))
        = Nat.min (Z.to_nat ks) (length image - 2048)
     /\ BootPartitionAnalyzer.extract_kernel false image = (false, None))
  /\ ((length image < 12)%nat ->
      forall write_ok,
        BootPartitionAnalyzer.extract_kernel write_ok image = (false, None)).
Proof.
  unfold BootPartitionAnalyzer.extract_kernel, BootPartitionAnalyzer.field. split.
  - intros Hl. destruct (field_range image 8) as (ks & Eks & Hks); [lia|lia|].
    exists ks. rewrite Eks.
    destruct (Z.leb_spec 12 (Z.of_nat (length image))); [|lia].
    split; [reflexivity|]. split.
    + unfold Bytes.slice. replace (2048 + ks - 2048) with ks by lia. reflexivity.
    + split; [|reflexivity]. rewrite length_firstn, length_skipn. reflexivity.
  - intros Hl write_ok.
    destruct (Z.leb_spec 12 (Z.of_nat (length image))); [lia|reflexivity].
Qed.

(** X6: when the header says [page_size = 0], [extract_ramdisk] returns
    [False] and writes nothing, whether or not the output file can be
    written: the division by the page size raises and is caught. *)
Theorem X6_extract_ramdisk_zero_page_size
    (image : list byte) (write_ok : bool) (h : BootPartitionAnalyzer.header) :
  BootPartitionAnalyzer.analyze_boot_header image = Some h ->
  BootPartitionAnalyzer.page_size h = 0 ->
  BootPartitionAnalyzer.extract_ramdisk write_ok image = (false, None).
Proof.
  unfold BootPartitionAnalyzer.extract_ramdisk, BootPartitionAnalyzer.ramdisk_start.
  intros -> ->. reflexivity.
Qed.

Lemma X6_extract_ramdisk_zero_page_size_witness :
  BootPartitionAnalyzer.extract_ramdisk true Example2.blank_boot_image = (false, None).
Proof.
  destruct (BootPartitionAnalyzer.analyze_boot_header Example2.blank_boot_image)
    as [h|] eqn:Eh; [|vm_compute in Eh; discriminate Eh].
  apply (X6_extract_ramdisk_zero_page_size Example2.blank_boot_image true h Eh).
  vm_compute in Eh. injection Eh as <-. reflexivity.
Defined.

(** X7: with a non-zero page size the ramdisk is looked for at a
    multiple of the page size, after the header page and the kernel,
    less than one page after the end of the kernel; the bytes written
    are the slice of the image from there, [ramdisk_size] long at
    most. *)
Theorem X7_ramdisk_starts_on_a_page (image : list byte) (h : BootPartitionAnalyzer.header) :
  BootPartitionAnalyzer.analyze_boot_header image = Some h ->
  BootPartitionAnalyzer.page_size h <> 0 ->
  exists start,
    BootPartitionAnalyzer.ramdisk_start h = Some start
    /\ start mod BootPartitionAnalyzer.page_size h = 0
    /\ BootPartitionAnalyzer.page_size h + BootPartitionAnalyzer.kernel_size h <= start
    /\ start < BootPartitionAnalyzer.page_size h + BootPartitionAnalyzer.kernel_size h
               + BootPartitionAnalyzer.page_size h
    /\ BootPartitionAnalyzer.extract_ramdisk true image
       = (true, Some (firstn (Z.to_nat (BootPartitionAnalyzer.ramdisk_size h))
                             (skipn (Z.to_nat start) image))).
Proof.
  intros Eh Hp.
  destruct (boot_header_fields image h Eh) as (_ & _ & _ & _ & _ & _ & Hk & Hr & _ & Hps).
  unfold BootPartitionAnalyzer.extract_ramdisk, BootPartitionAnalyzer.ramdisk_start.
  rewrite Eh.
  destruct (Z.eqb_spec (BootPartitionAnalyzer.page_size h) 0) as [E|_]; [contradiction|].
  set (p := BootPartitionAnalyzer.page_size h) in *.
  set (k := BootPartitionAnalyzer.kernel_size h) in *.
  eexists. split; [reflexivity|].
  assert (Hpos : 0 < p) by lia.
  pose proof (Z.div_mod (k + p - 1) p ltac:(lia)) as Hdm.
  pose proof (Z.mod_pos_bound (k + p - 1) p Hpos) as Hmb.
  split.
  { replace (p + (k + p - 1) / p * p) with (((k + p - 1) / p + 1) * p) by ring.
    apply Z.mod_mul. lia. }
  split; [nia|]. split; [nia|].
  unfold Bytes.slice.
  replace (p + (k + p - 1) / p * p + BootPartitionAnalyzer.ramdisk_size h
           - (p + (k + p - 1) / p * p))
    with (BootPartitionAnalyzer.ramdisk_size h) by lia.
  reflexivity.
Qed.

Lemma X7_ramdisk_starts_on_a_page_witness :
  exists h start,
    BootPartitionAnalyzer.analyze_boot_header Example2.boot_image = Some h
    /\ BootPartitionAnalyzer.ramdisk_start h = Some start
    /\ start = 6144.
Proof.
  destruct (BootPartitionAnalyzer.analyze_boot_header Example2.boot_image)
    as [h|] eqn:Eh; [|vm_compute in Eh; discriminate Eh].
  assert (Hp : BootPartitionAnalyzer.page_size h = 2048)
    by (vm_compute in Eh; injection Eh as <-; reflexivity).
  assert (Hk : BootPartitionAnalyzer.kernel_size h = 2049)
    by (vm_compute in Eh; injection Eh as <-; reflexivity).
  destruct (X7_ramdisk_starts_on_a_page Example2.boot_image h Eh)
    as (start & Es & Hm & Hlo & Hhi & _).
  - rewrite Hp. discriminate.
  - exists h, start. split; [reflexivity|]. split; [exact Es|].
    rewrite Hp, Hk in *. apply Z.mod_divide in Hm; [|lia].
    destruct Hm as [q ->]. lia.
Defined.

(** ** Signature search *)

Lemma starts_with_firstn (sub : list byte) : forall s,
  Bytes.starts_with sub s = true <-> firstn (length sub) s = sub.
Proof.
  induction sub as [|x sub IH]; intros s; simpl.
  - split; reflexivity.
  - destruct s as [|y s]; [split; discriminate|].
    rewrite firstn_cons. simpl. rewrite andb_true_iff, IH. split.
    + intros [Hx Hs]. apply Byte.byte_dec_bl in Hx. subst y. rewrite Hs. reflexivity.
    + intros H. injection H as -> H. split; [apply Byte.byte_dec_lb; reflexivity|exact H].
Qed.

Lemma find_in_none (sub : list byte) : forall s base,
  0 <= base -> Bytes.find_in sub s base = -1 ->
  forall k : nat, Bytes.starts_with sub (skipn k s) = false.
Proof.
  induction s as [|x s IH]; intros base Hb; simpl.
  - destruct (Bytes.starts_with sub []) eqn:E; [lia|].
    intros _ k. rewrite skipn_nil. exact E.
  - destruct (Bytes.starts_with sub (x :: s)) eqn:E; [lia|].
    intros H [|k]; [exact E|]. simpl. apply (IH (base + 1)); [lia|exact H].
Qed.

Lemma find_in_some (sub : list byte) : forall s base,
  Bytes.find_in sub s base <> -1 ->
  exists k : nat,
    Bytes.find_in sub s base = base + Z.of_nat k
    /\ Bytes.starts_with sub (skipn k s) = true
    /\ forall j : nat, (j < k)%nat -> Bytes.starts_with sub (skipn j s) = false.
Proof.
  induction s as [|x s IH]; intros base; simpl.
  - destruct (Bytes.starts_with sub []) eqn:E; [|congruence].
    intros _. exists 0%nat. repeat split; [lia|exact E|lia].
  - destruct (Bytes.starts_with sub (x :: s)) eqn:E.
    + intros _. exists 0%nat. repeat split; [lia|exact E|lia].
    + intros H. destruct (IH _ H) as (k & Ek & Hk & Hj).
      exists (S k). repeat split; [lia|exact Hk|].
      intros [|j] Hlt; [exact E|]. simpl. apply Hj. lia.
Qed.

(** An occurrence of the magic at position [p] of the image. *)
Lemma magic_occurrence_inv (s : list byte) :
  Bytes.starts_with SLACertificate.SLA_MAGIC s = true ->
  exists rest, s = ("S"%byte :: "L"%byte :: "A"%byte :: x00 :: rest).
Proof.
  intros H. apply starts_with_firstn in H.
  destruct s as [|a [|b [|c [|d rest]]]]; try discriminate H.
  injection H as -> -> -> ->. eauto.
Qed.

Lemma magic_no_overlap (image : list byte) (p k : nat) :
  Bytes.starts_with SLACertificate.SLA_MAGIC (skipn p image) = true ->
  (0 < k < 4)%nat ->
  Bytes.starts_with SLACertificate.SLA_MAGIC (skipn (p + k) image) = false.
Proof.
  intros H Hk. destruct (magic_occurrence_inv _ H) as (rest & E).
  rewrite Nat.add_comm, <- skipn_skipn, E.
  destruct k as [|[|[|[|k]]]]; try lia; reflexivity.
Qed.

Lemma magic_occurrence_length (image : list byte) (p : nat) :
  Bytes.starts_with SLACertificate.SLA_MAGIC (skipn p image) = true ->
  (p + 4 <= length image)%nat.
Proof.
  intros H. destruct (magic_occurrence_inv _ H) as (rest & E).
  apply (f_equal (@length _)) in E. rewrite length_skipn in E. simpl in E. lia.
Qed.

Lemma find_magic (image : list byte) (offset : nat) :
  (offset <= length image)%nat ->
  (Bytes.find SLACertificate.SLA_MAGIC image (Z.of_nat offset) = -1
   /\ forall p : nat, (offset <= p)%nat ->
        Bytes.starts_with SLACertificate.SLA_MAGIC (skipn p image) = false)
  \/ (exists pos : nat,
        Bytes.find SLACertificate.SLA_MAGIC image (Z.of_nat offset) = Z.of_nat pos
        /\ (offset <= pos)%nat
        /\ Bytes.starts_with SLACertificate.SLA_MAGIC (skipn pos image) = true
        /\ forall p : nat, (offset <= p < pos)%nat ->
             Bytes.starts_with SLACertificate.SLA_MAGIC (skipn p image) = false).
Proof.
  intros Ho. unfold Bytes.find.
  destruct (Z.ltb_spec (Z.of_nat (length image)) (Z.of_nat offset)); [lia|].
  rewrite Nat2Z.id.
  destruct (Z.eq_dec (Bytes.find_in SLACertificate.SLA_MAGIC (skipn offset image)
                        (Z.of_nat offset)) (-1)) as [E|E].
  - left. split; [exact E|]. intros p Hp.
    replace p with ((p - offset) + offset)%nat by lia. rewrite <- skipn_skipn.
    apply (find_in_none _ _ (Z.of_nat offset)); [lia|exact E].
  - right. destruct (find_in_some _ _ _ E) as (k & Ek & Hk & Hj).
    exists (offset + k)%nat. rewrite Ek.
    split; [lia|]. split; [lia|].
    split; [rewrite Nat.add_comm, <- skipn_skipn; exact Hk|].
    intros p Hp. replace p with ((p - offset) + offset)%nat by lia.
    rewrite <- skipn_skipn. apply Hj. lia.
Qed.

#[local] Arguments Bytes.find : simpl never.
#[local] Arguments Bytes.starts_with : simpl never.

Lemma find_loop_spec (image : list byte) : forall (fuel offset : nat) acc,
  (offset <= length image)%nat ->
  (length image - offset < fuel)%nat ->
  exists found,
    BootPartitionAnalyzer.find_loop fuel image (Z.of_nat offset) acc = (acc ++ found)%list
    /\ Forall (fun pd =>
         exists p : nat,
           fst pd = Z.of_nat p /\ (offset <= p)%nat
           /\ Bytes.starts_with SLACertificate.SLA_MAGIC (skipn p image) = true
           /\ snd pd = firstn 2048 (skipn p image)) found
    /\ StronglySorted (fun x y => fst x + 4 <= fst y) found
    /\ (forall p : nat, (offset <= p)%nat ->
          Bytes.starts_with SLACertificate.SLA_MAGIC (skipn p image) = true ->
          In (Z.of_nat p) (map fst found)).
Proof.
  induction fuel as [|fuel IH]; intros offset acc Ho Hf; [lia|].
  simpl. destruct (find_magic image offset Ho) as [[E Hnone]|(pos & E & Hpos & Hocc & Hbefore)];
    rewrite E.
  - exists []. rewrite app_nil_r. simpl.
    split; [reflexivity|]. split; [constructor|]. split; [constructor|].
    intros p Hp Hc. rewrite (Hnone p Hp) in Hc. discriminate.
  - destruct (Z.eqb_spec (Z.of_nat pos) (-1)); [lia|].
    pose proof (magic_occurrence_length image pos Hocc) as Hlen.
    replace (Z.of_nat pos + 4) with (Z.of_nat (pos + 4)) by lia.
    destruct (IH (pos + 4)%nat
                (acc ++ [(Z.of_nat pos,
                          Bytes.slice image (Z.of_nat pos)
                            (Z.of_nat pos + SLACertificate.SLA_SIZE_BYTES))])%list)
      as (found & Ef & Hall & Hsorted & Hcomplete); [lia|lia|].
    rewrite Ef, <- app_assoc. simpl.
    eexists. split; [reflexivity|].
    split.
    { constructor.
      - exists pos. simpl. split; [reflexivity|]. split; [exact Hpos|].
        split; [exact Hocc|]. unfold Bytes.slice, SLACertificate.SLA_SIZE_BYTES.
        rewrite Nat2Z.id. replace (Z.of_nat pos + 2048 - Z.of_nat pos) with 2048 by lia.
        reflexivity.
      - eapply List.Forall_impl; [|exact Hall]. simpl.
        intros pd (p & H1 & H2 & H3). exists p. split; [exact H1|]. split; [lia|exact H3]. }
    split.
    { constructor; [exact Hsorted|].
      eapply List.Forall_impl; [|exact Hall]. simpl.
      intros pd (p & H1 & H2 & _). rewrite H1. lia. }
    intros p Hp Hc. simpl.
    destruct (Nat.lt_trichotomy p pos) as [Hlt|[->|Hgt]].
    + rewrite (Hbefore p) in Hc by lia. discriminate.
    + left. reflexivity.
    + destruct (Nat.le_gt_cases (pos + 4) p) as [Hfar|Hnear].
      * right. apply Hcomplete; assumption.
      * assert (Hk : (0 < p - pos < 4)%nat) by lia.
        pose proof (magic_no_overlap image pos (p - pos) Hocc Hk) as Hno.
        replace (pos + (p - pos))%nat with p in Hno by lia.
        rewrite Hno in Hc. discriminate.
Qed.

Lemma find_sla_signatures_spec (image : list byte) :
  Forall (fun pd =>
    exists p : nat,
      fst pd = Z.of_nat p
      /\ Bytes.starts_with SLACertificate.SLA_MAGIC (skipn p image) = true
      /\ snd pd = firstn 2048 (skipn p image))
    (BootPartitionAnalyzer.find_sla_signatures image)
  /\ StronglySorted (fun x y => fst x + 4 <= fst y)
       (BootPartitionAnalyzer.find_sla_signatures image)
  /\ (forall p : nat,
        Bytes.starts_with SLACertificate.SLA_MAGIC (skipn p image) = true ->
        In (Z.of_nat p) (map fst (BootPartitionAnalyzer.find_sla_signatures image))).
Proof.
  unfold BootPartitionAnalyzer.find_sla_signatures.
  destruct (find_loop_spec image (S (length image)) 0 []) as (found & E & Hall & Hs & Hc);
    [lia|lia|].
  change 0 with (Z.of_nat 0). rewrite E. simpl.
  split; [|split; [exact Hs|intros p; apply Hc; lia]].
  eapply List.Forall_impl; [|exact Hall]. simpl.
  intros pd (p & H1 & _ & H2 & H3). eauto.
Qed.

(** X8: every signature reported by [find_sla_signatures] is an
    occurrence of the magic in the image: the position is in range, the
    data is the slice of at most 2048 bytes from there and starts with
    the magic; the positions are ascending and at least four apart. *)
Theorem X8_signatures_are_occurrences (image : list byte) :
  Forall (fun pd =>
    exists p : nat,
      fst pd = Z.of_nat p
      /\ (p + 4 <= length image)%nat
      /\ firstn 4 (skipn p image) = SLACertificate.SLA_MAGIC
      /\ snd pd = firstn 2048 (skipn p image)
      /\ firstn 4 (snd pd) = SLACertificate.SLA_MAGIC
      /\ length (snd pd) = Nat.min 2048 (length image - p))
    (BootPartitionAnalyzer.find_sla_signatures image)
  /\ StronglySorted (fun x y => fst x + 4 <= fst y)
       (BootPartitionAnalyzer.find_sla_signatures image).
Proof.
  destruct (find_sla_signatures_spec image) as (Hall & Hs & _).
  split; [|exact Hs].
  eapply List.Forall_impl; [|exact Hall]. simpl.
  intros pd (p & H1 & H2 & H3). exists p.
  pose proof (magic_occurrence_length image p H2) as Hlen.
  apply starts_with_firstn in H2. change (length SLACertificate.SLA_MAGIC) with 4%nat in H2.
  repeat split; auto.
  - rewrite H3, firstn_firstn. exact H2.
  - rewrite H3, length_firstn, length_skipn. reflexivity.
Qed.

(** X9: no occurrence is missed: every position at which the image
    holds the magic is among the reported positions. *)
Theorem X9_every_occurrence_is_found (image : list byte) (p : nat) :
  firstn 4 (skipn p image) = SLACertificate.SLA_MAGIC ->
  In (Z.of_nat p) (map fst (BootPartitionAnalyzer.find_sla_signatures image)).
Proof.
  intros H. destruct (find_sla_signatures_spec image) as (_ & _ & Hc).
  apply Hc. apply starts_with_firstn. exact H.
Qed.

Lemma X9_every_occurrence_is_found_witness :
  In 7 (map fst (BootPartitionAnalyzer.find_sla_signatures
                   ([x00] ++ SLACertificate.SLA_MAGIC ++ [x01; x02]
                    ++ SLACertificate.SLA_MAGIC ++ SLACertificate.SLA_MAGIC)%list)).
Proof.
  apply (X9_every_occurrence_is_found
           ([x00] ++ SLACertificate.SLA_MAGIC ++ [x01; x02]
            ++ SLACertificate.SLA_MAGIC ++ SLACertificate.SLA_MAGIC)%list 7).
  reflexivity.
Defined.

(** X10: a reported signature passes the magic check of
    [SLACertificate.parse]; it is accepted exactly when at least eight
    bytes of the image remain from its position, so a magic within the
    last seven bytes of the image is found but not parsed. *)
Theorem X10_found_signature_parses (image : list byte) (pos : Z) (sla_data : list byte) :
  In (pos, sla_data) (BootPartitionAnalyzer.find_sla_signatures image) ->
  SLACertificate.magic (snd (SLACertificate.parse (SLACertificate.init sla_data)))
  = Some SLACertificate.SLA_MAGIC
  /\ (fst (SLACertificate.parse (SLACertificate.init sla_data)) = true
      <-> pos + 8 <= Z.of_nat (length image)).
Proof.
  intros Hin. destruct (find_sla_signatures_spec image) as (Hall & _ & _).
  rewrite List.Forall_forall in Hall. destruct (Hall _ Hin) as (p & H1 & H2 & H3).
  simpl in H1, H3. subst pos.
  pose proof (magic_occurrence_length image p H2) as Hlen.
  apply starts_with_firstn in H2. change (length SLACertificate.SLA_MAGIC) with 4%nat in H2.
  assert (Em : firstn 4 sla_data = SLACertificate.SLA_MAGIC).
  { rewrite H3, firstn_firstn. exact H2. }
  assert (El : length sla_data = Nat.min 2048 (length image - p)).
  { rewrite H3, length_firstn, length_skipn. reflexivity. }
  split.
  - unfold SLACertificate.parse. simpl.
    destruct (Z.ltb_spec (Z.of_nat (length sla_data)) 4); [lia|]. simpl.
    assert (Eb : QFPROMExtractor.bytes_eqb (Bytes.slice sla_data 0 4)
                   SLACertificate.SLA_MAGIC = true).
    { rewrite slice_0. apply bytes_eqb_eq. exact Em. }
    rewrite Eb. simpl. rewrite slice_0. change (Z.to_nat 4) with 4%nat. rewrite Em.
    destruct (Z.of_nat (length sla_data) <? 8); [reflexivity|].
    destruct (Bytes.unpack_le32 _); [|reflexivity].
    destruct (8 + 4 <=? Z.of_nat (length sla_data)).
    + destruct (Bytes.unpack_le32 _); [|reflexivity].
      destruct (_ <? _); reflexivity.
    + destruct (_ <? _); reflexivity.
  - rewrite (proj1 (parse_result sla_data)). split.
    + intros [H _]. lia.
    + intros H. split; [lia|exact Em].
Qed.

Lemma X10_found_signature_parses_witness :
  fst (SLACertificate.parse
         (SLACertificate.init [ "S"%byte; "L"%byte; "A"%byte; x00; x01; x02 ])) = true
  <-> 1 + 8 <= Z.of_nat (length ([x00] ++ SLACertificate.SLA_MAGIC ++ [x01; x02])%list).
Proof.
  apply (X10_found_signature_parses ([x00] ++ SLACertificate.SLA_MAGIC ++ [x01; x02])%list
           1 [ "S"%byte; "L"%byte; "A"%byte; x00; x01; x02 ]).
  left. reflexivity.
Defined.

(** ** Error-recovery policy, continued *)

Lemma block_skip_address (address : Z) :
  ((address + 0x1000) / 0x1000 * 0x1000) mod 0x1000 = 0
  /\ address < (address + 0x1000) / 0x1000 * 0x1000 <= address + 0x1000.
Proof.
  split; [apply Z.mod_mul; lia|].
  pose proof (Z.div_mod (address + 0x1000) 0x1000 ltac:(lia)).
  pose proof (Z.mod_pos_bound (address + 0x1000) 0x1000 ltac:(lia)). lia.
Qed.

(** X11: when the counter, once incremented, reaches the threshold, a
    0x04 error returns [skip_to_next_block] to the next 4 KiB boundary
    strictly above the address, appends the region from the address to
    that boundary, sleeps not at all and does not reset the counter. *)
Theorem X11_block_skip_goes_to_next_boundary
    (now : string) (address : Z) (resp : option (list byte)) (st : USBErrorRecovery.t) :
  error_threshold st <= error_count st + 1 ->
  let '(evs, a, st') := USBErrorRecovery.handle_error now address 0x04 resp st in
  evs = []
  /\ action_ a = skip_to_next_block
  /\ skip_size a = Some 0x1000
  /\ next_address a mod 0x1000 = 0
  /\ address < next_address a <= address + 0x1000
  /\ skip_regions st'
     = (skip_regions st
        ++ [{| start := address; end_ := next_address a;
               region_reason := "0x04_errors" |}])%list
  /\ error_count st' = error_count st + 1.
Proof.
  destruct st as [th n le lg sk]; simpl. intros Hth.
  unfold USBErrorRecovery.handle_error; simpl.
  destruct (Z.leb_spec th (n + 1)); [|lia]. simpl.
  destruct (block_skip_address address) as [Hm Hr].
  repeat split; auto; lia.
Qed.

Lemma X11_block_skip_goes_to_next_boundary_witness :
  let '(evs, a, st') :=
    USBErrorRecovery.handle_error "t" 0x00701234 0x04 None Example2.strained in
  action_ a = skip_to_next_block /\ next_address a = 0x00702000
  /\ error_count st' = 5.
Proof.
  generalize (X11_block_skip_goes_to_next_boundary "t" 0x00701234 None Example2.strained).
  destruct (USBErrorRecovery.handle_error "t" 0x00701234 0x04 None Example2.strained)
    as [[evs a] st'] eqn:E.
  intros H. destruct H as (_ & Ha & _ & _ & _ & _ & Hc); [simpl; lia|].
  split; [exact Ha|]. split; [|exact Hc].
  vm_compute in E. injection E as _ <- _. reflexivity.
Defined.

Lemma handle_error_regions now address code resp st :
  let '(_, a, st') := USBErrorRecovery.handle_error now address code resp st in
  exists added,
    skip_regions st' = (skip_regions st ++ added)%list
    /\ length added = Trace.block_skips [a]
    /\ Forall Trace.region_ok added
    /\ error_threshold st' = error_threshold st.
Proof.
  destruct st as [th n le lg sk]. unfold USBErrorRecovery.handle_error, USBErrorRecovery.default_skip; simpl.
  destruct (block_skip_address address) as [Hm Hr].
  policy_cases; simpl;
    try (exists []; rewrite app_nil_r; repeat split; auto; constructor).
  eexists. split; [reflexivity|]. split; [reflexivity|]. split; [|reflexivity].
  constructor; [|constructor]. unfold Trace.region_ok. simpl. auto.
Qed.

Lemma run_regions calls : forall st,
  exists added,
    skip_regions (snd (Spec.run calls st)) = (skip_regions st ++ added)%list
    /\ length added = Trace.block_skips (fst (Spec.run calls st))
    /\ Forall Trace.region_ok added
    /\ error_threshold (snd (Spec.run calls st)) = error_threshold st.
Proof.
  induction calls as [|c calls IH]; intros st; simpl.
  - exists []. rewrite app_nil_r. repeat split; auto.
  - destruct c as [now address code resp|].
    + pose proof (handle_error_regions now address code resp st) as H.
      destruct (USBErrorRecovery.handle_error now address code resp st) as [[evs a] st'].
      destruct H as (added1 & E1 & L1 & F1 & T1).
      destruct (IH st') as (added2 & E2 & L2 & F2 & T2).
      destruct (Spec.run calls st') as [acts st'']. simpl in *.
      exists (added1 ++ added2)%list. rewrite E2, E1, <- app_assoc.
      split; [reflexivity|]. split.
      * rewrite length_app, L1, L2. unfold Trace.block_skips. simpl.
        destruct (action_ a); simpl; lia.
      * split; [apply Forall_app; auto|congruence].
    + destruct (IH (USBErrorRecovery.reset_error_count st)) as (added & E & L & F & T).
      exists added. destruct st; simpl in *. auto.
Qed.

(** X12: the skip-region log only grows: over any sequence of calls,
    from any state, the regions present before stay in front, one
    region is appended per [skip_to_next_block] action returned, every
    appended region ends on a 4 KiB boundary at most 4 KiB after its
    start, and the threshold is never changed. *)
Theorem X12_skip_regions_are_append_only (calls : list Spec.call) (st : USBErrorRecovery.t) :
  exists added,
    skip_regions (snd (Spec.run calls st)) = (skip_regions st ++ added)%list
    /\ length added = Trace.block_skips (fst (Spec.run calls st))
    /\ Forall Trace.region_ok added
    /\ error_threshold (snd (Spec.run calls st)) = error_threshold st.
Proof. apply run_regions. Qed.

(** X13: on a policy object that started fresh, [get_skip_report]
    answers [No regions skipped.] after any sequence of calls. *)
Theorem X13_skip_report_stays_empty (calls : list Spec.call) :
  get_skip_report (snd (Spec.run calls USBErrorRecovery.init)) = "No regions skipped.".
Proof.
  destruct (run_low_count calls _ low_count_init) as [(_ & _ & Hs) _].
  unfold get_skip_report. rewrite Hs. reflexivity.
Qed.

(** ** Command codec, continued *)

Lemma span_unquoted_spec (s : Text.text) :
  let '(run, rest) := Text.span_unquoted s in
  s = (run ++ rest)%list /\ ~ In Text.quote run.
Proof.
  induction s as [|c s IH]; simpl; [split; [reflexivity|intros []]|].
  destruct (N.eqb_spec c Text.quote) as [->|Hne].
  - split; [reflexivity|intros []].
  - destruct (Text.span_unquoted s) as [run rest]. destruct IH as [-> Hn].
    split; [reflexivity|]. simpl. intros [H|H]; [congruence|contradiction].
Qed.

Lemma strip_spec (p : Text.text) : forall s rest,
  Text.strip p s = Some rest -> s = (p ++ rest)%list.
Proof.
  induction p as [|a p IH]; intros s rest; simpl.
  - intros H. injection H as ->. reflexivity.
  - destruct s as [|b s]; [discriminate|].
    destruct (N.eqb_spec a b) as [->|]; [|discriminate].
    intros H. apply IH in H. rewrite H. reflexivity.
Qed.

Lemma starts_with_app (p : Text.text) : forall rest,
  Text.starts_with p (p ++ rest)%list = true.
Proof.
  induction p as [|a p IH]; intros rest; simpl; [reflexivity|].
  rewrite N.eqb_refl. apply IH.
Qed.

Lemma contains_suffix (needle : Text.text) : forall pre s,
  Text.contains needle s = true -> Text.contains needle (pre ++ s)%list = true.
Proof.
  induction pre as [|c pre IH]; intros s H; simpl; [exact H|].
  rewrite (IH s H). apply orb_true_r.
Qed.

Lemma match_value_here_spec (s g : Text.text) :
  Text.match_value_here s = Some g ->
  g <> [] /\ ~ In Text.quote g
  /\ Text.starts_with (Text.of_string "value=" ++ [Text.quote] ++ g ++ [Text.quote])%list s
     = true.
Proof.
  unfold Text.match_value_here.
  destruct (Text.strip _ s) as [after|] eqn:Es; [|discriminate].
  apply strip_spec in Es.
  pose proof (span_unquoted_spec after) as Hsp.
  destruct (Text.span_unquoted after) as [run rest]. destruct Hsp as [-> Hn].
  destruct run as [|c run]; [discriminate|].
  destruct rest as [|q rest]; [discriminate|].
  destruct (N.eqb_spec q Text.quote) as [->|]; [|discriminate].
  intros H. injection H as <-.
  split; [discriminate|]. split; [exact Hn|].
  rewrite Es.
  replace ((Text.of_string "value=" ++ [Text.quote])
           ++ (c :: run) ++ Text.quote :: rest)%list
    with ((Text.of_string "value=" ++ [Text.quote] ++ (c :: run) ++ [Text.quote])
          ++ rest)%list.
  - apply starts_with_app.
  - rewrite <- !app_assoc. reflexivity.
Qed.

Lemma search_value_cons (c : N) (s : Text.text) :
  Text.search_value (c :: s)
  = match Text.match_value_here (c :: s) with
    | Some g => Some g
    | None => Text.search_value s
    end.
Proof. reflexivity. Qed.

Lemma contains_cons (needle : Text.text) (c : N) (s : Text.text) :
  Text.contains needle (c :: s)
  = Text.starts_with needle (c :: s) || Text.contains needle s.
Proof. reflexivity. Qed.

Lemma search_value_spec (s : Text.text) : forall g,
  Text.search_value s = Some g ->
  g <> [] /\ ~ In Text.quote g
  /\ Text.contains (Text.of_string "value=" ++ [Text.quote] ++ g ++ [Text.quote])%list s
     = true.
Proof.
  induction s as [|c s IH]; intros g.
  - intros H. vm_compute in H. discriminate H.
  - rewrite search_value_cons, contains_cons.
    destruct (Text.match_value_here (c :: s)) as [g'|] eqn:E.
    + intros H. injection H as ->. apply match_value_here_spec in E.
      destruct E as (H1 & H2 & H3). rewrite H3. repeat split; auto.
    + intros H. destruct (IH g H) as (H1 & H2 & H3). rewrite H3.
      repeat split; auto. apply orb_true_r.
Qed.

Lemma parse_response_not_0x04 (response : list byte) :
  Spec.first_byte_is x04 response = false ->
  FirehoseXMLHandler.parse_response response
  = FirehoseXMLHandler.classify_text (Text.utf8_decode_ignore response)
      {| FirehoseXMLHandler.raw := Fmt.bytes_hex response;
         FirehoseXMLHandler.text_ := Text.utf8_decode_ignore response;
         FirehoseXMLHandler.status := "unknown";
         FirehoseXMLHandler.error := None;
         FirehoseXMLHandler.data := None |}.
Proof.
  unfold FirehoseXMLHandler.parse_response, Spec.first_byte_is.
  destruct response as [|b rest]; [reflexivity|].
  change (firstn 1 (b :: rest)) with [b]. cbv iota. intros ->. reflexivity.
Qed.

Lemma parse_response_0x04 (rest : list byte) :
  FirehoseXMLHandler.status (FirehoseXMLHandler.parse_response (x04 :: rest))
  = "error_code_0x04"
  /\ FirehoseXMLHandler.error (FirehoseXMLHandler.parse_response (x04 :: rest))
     = Some (Text.of_string "Device returned error code 0x04 (Non-standard response)")
  /\ FirehoseXMLHandler.data (FirehoseXMLHandler.parse_response (x04 :: rest)) = None
  /\ FirehoseXMLHandler.raw (FirehoseXMLHandler.parse_response (x04 :: rest))
     = Fmt.bytes_hex (x04 :: rest)
  /\ FirehoseXMLHandler.text_ (FirehoseXMLHandler.parse_response (x04 :: rest))
     = Text.utf8_decode_ignore (x04 :: rest).
Proof.
  unfold FirehoseXMLHandler.parse_response.
  change (firstn 1 (x04 :: rest)) with [x04]. cbv iota.
  change (Byte.eqb x04 x04) with true. cbv iota.
  unfold FirehoseXMLHandler.classify_text.
  repeat match goal with
         | |- context [if ?c then _ else _] => destruct c
         | |- context [match Text.search_value ?t with _ => _ end] =>
           destruct (Text.search_value t)
         end; repeat split.
Qed.

Ltac classify_cases :=
  unfold FirehoseXMLHandler.classify_text;
  repeat match goal with
         | |- context [if (?c || ?d) then _ else _] => destruct c, d; cbv [orb]
         | |- context [if ?c then _ else _] => destruct c
         end.

(** X14: when a response is classified [error] and carries an error
    detail, the detail is a non-empty text without double quote that
    appears in the decoded response as the quoted value of a [value=]
    attribute. *)
Theorem X14_error_detail_is_a_quoted_value (response : list byte) (g : Text.text) :
  FirehoseXMLHandler.status (FirehoseXMLHandler.parse_response response) = "error" ->
  FirehoseXMLHandler.error (FirehoseXMLHandler.parse_response response) = Some g ->
  g <> [] /\ ~ In Text.quote g
  /\ Text.contains
       (Text.of_string "value=" ++ [Text.quote] ++ g ++ [Text.quote])%list
       (Text.utf8_decode_ignore response) = true.
Proof.
  destruct (Spec.first_byte_is x04 response) eqn:E4.
  - destruct response as [|b rest]; [discriminate|]. simpl in E4.
    apply Byte.byte_dec_bl in E4. subst b.
    rewrite (proj1 (parse_response_0x04 rest)). discriminate.
  - rewrite (parse_response_not_0x04 response E4).
    classify_cases; simpl; try discriminate;
      (destruct (Text.search_value (Text.utf8_decode_ignore response)) as [g'|] eqn:Es;
       simpl; [|discriminate]; intros _ H; injection H as <-;
       exact (search_value_spec _ _ Es)).
Qed.

Lemma X14_error_detail_is_a_quoted_value_witness :
  Text.of_string "ERROR: bad address" <> []
  /\ ~ In Text.quote (Text.of_string "ERROR: bad address").
Proof.
  destruct (X14_error_detail_is_a_quoted_value Example2.error_response
              (Text.of_string "ERROR: bad address")) as (H1 & H2 & _).
  - vm_compute. reflexivity.
  - vm_compute. reflexivity.
  - split; assumption.
Defined.

(** X15: on every response, [parse_response] gives one of six statuses,
    never fills [data], keeps the hexadecimal dump and the decoded text
    of the whole response, leaves [error] empty for [ack], [log] and
    [unknown], and sets a fixed message for [nak] and for
    [error_code_0x04]. *)
Theorem X15_parse_response_fields (response : list byte) :
  let r := FirehoseXMLHandler.parse_response response in
  In (FirehoseXMLHandler.status r)
     ["unknown"; "ack"; "nak"; "error"; "log"; "error_code_0x04"]
  /\ FirehoseXMLHandler.data r = None
  /\ FirehoseXMLHandler.raw r = Fmt.bytes_hex response
  /\ FirehoseXMLHandler.text_ r = Text.utf8_decode_ignore response
  /\ (FirehoseXMLHandler.status r = "ack" \/ FirehoseXMLHandler.status r = "log"
      \/ FirehoseXMLHandler.status r = "unknown" ->
      FirehoseXMLHandler.error r = None)
  /\ (FirehoseXMLHandler.status r = "nak" ->
      FirehoseXMLHandler.error r = Some (Text.of_string "Device NAK response"))
  /\ (FirehoseXMLHandler.status r = "error_code_0x04" ->
      FirehoseXMLHandler.error r
      = Some (Text.of_string "Device returned error code 0x04 (Non-standard response)")).
Proof.
  cbv zeta. destruct (Spec.first_byte_is x04 response) eqn:E4.
  - destruct response as [|b rest]; [discriminate|]. simpl in E4.
    apply Byte.byte_dec_bl in E4. subst b.
    destruct (parse_response_0x04 rest) as (-> & -> & -> & -> & ->).
    split; [simpl; tauto|]. repeat split; auto.
    + intros [H|[H|H]]; discriminate H.
    + discriminate.
  - rewrite (parse_response_not_0x04 response E4).
    classify_cases;
      try destruct (Text.search_value (Text.utf8_decode_ignore response));
      simpl; (split; [tauto|]); repeat split; auto;
      try discriminate; intros [H|[H|H]]; discriminate H.
Qed.

(** ** Number formatting *)

Lemma string_length_app (a b : string) :
  String.length (a ++ b) = (String.length a + String.length b)%nat.
Proof. induction a as [|c a IH]; simpl; [reflexivity|]. rewrite IH. reflexivity. Qed.

Lemma hex2_length (b : byte) : String.length (Fmt.hex2 b) = 2%nat.
Proof. destruct b; reflexivity. Qed.

(** X16: the hexadecimal dump [data.hex()] has two characters per byte,
    and the value written for a non-empty read (two characters per
    byte, separated by single spaces) has [3 * n - 1] characters, 11 for
    a four-byte word. *)
Theorem X16_hex_lengths (d : list byte) :
  String.length (Fmt.bytes_hex d) = (2 * length d)%nat
  /\ (d <> [] -> String.length (Fmt.hex_join d) = (3 * length d - 1)%nat)
  /\ (length d = 4%nat -> String.length (Fmt.hex_join d) = 11%nat).
Proof.
  assert (Hj : forall l : list byte, l <> [] ->
            String.length (Fmt.hex_join l) = (3 * length l - 1)%nat).
  { induction l as [|b l IH]; [congruence|]. intros _.
    destruct l as [|b' l].
    - simpl. apply hex2_length.
    - change (Fmt.hex_join (b :: b' :: l))
        with (Fmt.hex2 b ++ " " ++ Fmt.hex_join (b' :: l)).
      rewrite !string_length_app, hex2_length, IH by discriminate.
      simpl. lia. }
  split; [|split; [apply Hj|]].
  - induction d as [|b d IH]; [reflexivity|].
    change (Fmt.bytes_hex (b :: d)) with (Fmt.hex2 b ++ Fmt.bytes_hex d).
    rewrite string_length_app, hex2_length, IH. simpl. lia.
  - intros H. rewrite Hj; [lia|]. intros ->. discriminate.
Qed.

(** ** Traces of the transport *)

Lemma paced_app (l1 : list io_event) : forall l2,
  Trace.paced l1 -> Trace.paced l2 -> Trace.paced (l1 ++ l2)%list.
Proof.
  intros l2 H1 H2. induction H1 as [|address rest H IH|e rest He H IH].
  - exact H2.
  - simpl. apply Trace.paced_peek. exact IH.
  - simpl. apply Trace.paced_other; assumption.
Qed.

Lemma paced_delay_respected (evs : list io_event) :
  Trace.paced evs -> Trace.delay_respected evs.
Proof.
  intros H. induction H as [|address rest H IH|e rest He H IH];
    intros pre post E.
  - destruct pre; discriminate E.
  - destruct pre as [|e0 [|e1 [|e2 pre]]]; try discriminate E.
    + injection E as <- <- _. exists [], address. reflexivity.
    + injection E as <- <- <- E. destruct (IH pre post E) as (pre' & a' & ->).
      exists (UsbWrite address :: Sleep PEEK_COMMAND_DELAY_ms :: UsbRead :: pre'), a'.
      reflexivity.
  - destruct pre as [|e0 pre].
    + injection E as ->. contradiction.
    + injection E as -> E. destruct (IH pre post E) as (pre' & a' & ->).
      exists (e0 :: pre'), a'. reflexivity.
Qed.

Lemma appended_app (l1 l2 : list io_event) :
  Trace.appended (l1 ++ l2) = (Trace.appended l1 ++ Trace.appended l2)%list.
Proof. unfold Trace.appended. apply flat_map_app. Qed.

Lemma handle_error_trace now address code resp st :
  Trace.paced (fst (fst (USBErrorRecovery.handle_error now address code resp st)))
  /\ Trace.appended (fst (fst (USBErrorRecovery.handle_error now address code resp st)))
     = [].
Proof.
  destruct (handle_error_events now address code resp st) as [-> | ->].
  - split; [constructor|reflexivity].
  - split; [|reflexivity]. apply Trace.paced_other; [discriminate|constructor].
Qed.

Lemma low_mid (st : USBErrorRecovery.t) : Spec.low_count st -> Spec.mid_recovery st.
Proof.
  unfold Spec.low_count, Spec.mid_recovery. intros (Ht & Hc & Hs).
  split; [exact Ht|]. split; [lia|exact Hs].
Qed.

Lemma record_error_mid now address code (st : USBErrorRecovery.t) :
  Spec.low_count st -> Spec.mid_recovery (record_error now address code st).
Proof.
  unfold Spec.low_count, Spec.mid_recovery, record_error.
  destruct st as [th n le lg sk]; simpl. intros (Ht & Hc & Hs).
  split; [exact Ht|]. split; [lia|exact Hs].
Qed.

Lemma keeps_recovery_low {A} (P : Prop) (o : outcome A) st st' :
  (Spec.low_count st -> Spec.low_count st') -> Spec.keeps_recovery P o st st'.
Proof.
  intros H Hl. specialize (H Hl). split; [exact (low_mid _ H)|]. split; auto.
Qed.

Ltac low_state E H :=
  first [ exact H
        | exact (low_count_reset _ H)
        | match type of E with
          | USBErrorRecovery.handle_error ?n ?a ?c ?r ?st = _ =>
            let K := fresh in
            pose proof (low_count_handle_error n a c r st H) as K;
            rewrite E in K; exact (proj1 K)
          end ].

Ltac recovery_goal E :=
  let H := fresh in
  let Hn := fresh in
  let x := fresh in
  let Hx := fresh in
  unfold Spec.keeps_recovery; simpl; intros H;
  split; [first [ apply low_mid; low_state E H
                | exact (record_error_mid _ _ _ _ H) ]|];
  split; [intros Hn; first [ low_state E H | exfalso; apply Hn; reflexivity ]
         |intros x Hx; first [ low_state E H | discriminate Hx ]].

Ltac paced_goal :=
  repeat first [ apply Trace.paced_peek
               | apply Trace.paced_other; [discriminate|]
               | apply Trace.paced_nil ].

Ltac effects_case E :=
  do 3 eexists;
  split; [reflexivity|];
  split; [io_assoc|];
  split; [paced_goal|];
  split; [reflexivity|];
  recovery_goal E.

Lemma pyusb_effects p a w :
  exists o w' evs,
    _read_memory_pyusb p a w = (o, w')
    /\ io w' = (io w ++ evs)%list
    /\ Trace.paced evs
    /\ Trace.appended evs = []
    /\ Spec.keeps_recovery (naps p <> Some Cooldown) o
         (error_recovery (self w)) (error_recovery (self w')).
Proof.
  destruct w as [s i r]. destruct s as [eb ld dv up lf sr ed sl er].
  unfold_transport; simpl.
  destruct (negb dv || negb up) eqn:Hav.
  { exists (Ret None). eexists. exists [].
    split; [reflexivity|]. simpl. rewrite app_nil_r.
    split; [reflexivity|]. split; [constructor|]. split; [reflexivity|].
    apply keeps_recovery_low. auto. }
  destruct p as [ck u e d co ti np]; simpl.
  destruct u as [msg| |msg|resp|]; simpl.
  - destruct sl as [l|], ed; simpl; effects_case I.
  - destruct np as [[| |]|]; simpl;
      destruct (USBErrorRecovery.handle_error ck a 255 None er) as [[evs0 a0] r0] eqn:E;
      policy_events E; simpl; destruct sl as [l|], ed; simpl; effects_case E.
  - destruct np as [[| |]|]; simpl; destruct sl as [l|], ed; simpl; effects_case I.
  - destruct (firstn 512 resp) as [|b resp'] eqn:Er; simpl.
    + destruct np as [[| |]|]; simpl; destruct sl as [l|], ed; simpl; effects_case I.
    + destruct (Byte.eqb b x04); simpl.
      * destruct np as [[| |]|]; simpl; destruct sl as [l|], ed; simpl;
          destruct (USBErrorRecovery.handle_error ck a 4 (Some (b :: resp')) er)
            as [[evs0 a0] r0] eqn:E;
          policy_events E; simpl; effects_case E.
      * destruct np as [[| |]|]; simpl; destruct sl as [l|], ed; simpl; effects_case I.
  - destruct np as [[| |]|]; simpl; effects_case I.
Qed.

Lemma fallback_effects p a w :
  exists o w' evs,
    _read_memory_fallback p a w = (o, w')
    /\ io w' = (io w ++ evs)%list
    /\ Trace.paced evs
    /\ Trace.appended evs = []
    /\ self w' = self w.
Proof.
  destruct w as [s i r]. destruct s as [eb ld dv up lf sr ed sl er].
  unfold_transport; simpl.
  destruct (negb (truthy eb) || negb (truthy ld)).
  { exists (Ret None). eexists. exists [].
    split; [reflexivity|]. simpl. rewrite app_nil_r.
    split; [reflexivity|]. split; [constructor|]. split; reflexivity. }
  destruct p as [ck u e d co ti np]; simpl.
  destruct e as [msg|code out|]; simpl;
    [ | destruct code as [|c|c]; [destruct out as [c|]|..] | ];
    destruct np as [[| |]|]; simpl;
    (do 3 eexists; split; [reflexivity|]; split; [io_assoc|];
     split; [paced_goal|]; split; reflexivity).
Qed.

Lemma read_single_address_effects p a w :
  exists o w' evs,
    _read_single_address p a w = (o, w')
    /\ io w' = (io w ++ evs)%list
    /\ Trace.paced evs
    /\ Trace.appended evs = []
    /\ Spec.keeps_recovery (naps p <> Some Cooldown) o
         (error_recovery (self w)) (error_recovery (self w'))
    /\ (Spec.native_available (self w) = false -> self w' = self w).
Proof.
  unfold _read_single_address, noting, get_self, mbind, M_bind.
  fold (Spec.native_available (self w)).
  destruct (Spec.native_available (self w)) eqn:Hav.
  - destruct (pyusb_effects p a w) as (o1 & w1 & evs1 & E1 & Hio1 & Hp1 & Ha1 & Hl1).
    rewrite E1. destruct o1 as [[d|]|e0].
    + do 3 eexists. split; [reflexivity|]. simpl.
      split; [exact Hio1|]. split; [exact Hp1|]. split; [exact Ha1|].
      split; [|discriminate].
      apply keeps_recovery_low. intros H. exact (proj2 (proj2 (Hl1 H)) _ eq_refl).
    + destruct (fallback_effects p a w1) as (o2 & w2 & evs2 & E2 & Hio2 & Hp2 & Ha2 & Hs2).
      rewrite E2. do 3 eexists. split; [reflexivity|]. simpl.
      rewrite Hio2, Hio1, Hs2, <- app_assoc.
      split; [reflexivity|]. split; [apply paced_app; assumption|].
      split; [rewrite appended_app, Ha1, Ha2; reflexivity|].
      split; [|discriminate].
      apply keeps_recovery_low. intros H. exact (proj2 (proj2 (Hl1 H)) _ eq_refl).
    + do 3 eexists. split; [reflexivity|]. simpl.
      split; [exact Hio1|]. split; [exact Hp1|]. split; [exact Ha1|].
      split; [|discriminate].
      intros H. destruct (Hl1 H) as (Hm & Hn & _).
      split; [exact Hm|]. split; [exact Hn|discriminate].
  - destruct (fallback_effects p a w) as (o2 & w2 & evs2 & E2 & Hio2 & Hp2 & Ha2 & Hs2).
    rewrite E2. do 3 eexists. split; [reflexivity|]. simpl.
    rewrite Hs2. split; [exact Hio2|]. split; [exact Hp2|]. split; [exact Ha2|].
    split; [apply keeps_recovery_low|]; auto.
Qed.

Lemma line_of_length a r : (length (Trace.line_of a r) <= 1)%nat.
Proof.
  unfold Trace.line_of. destruct r as [[d|]|]; simpl; try lia.
  destruct (Spec.storedb d); simpl; lia.
Qed.

Lemma scan_iteration_effects p total cur rc w :
  Spec.progress_ok rc total ->
  exists o w' r evs tail,
    scan_iteration p total cur rc w = (o, w')
    /\ reads w' = (reads w ++ [(cur, r)])%list
    /\ io w' = (io w ++ evs)%list
    /\ Trace.paced evs
    /\ Trace.line_of cur r = (Trace.appended evs ++ tail)%list
    /\ (forall x, o = Ret x -> tail = [])
    /\ Spec.keeps_recovery (naps p <> Some Cooldown) o
         (error_recovery (self w)) (error_recovery (self w'))
    /\ (Spec.quiet p -> o = Ret tt).
Proof.
  intros Hp. unfold scan_iteration, mbind, M_bind.
  destruct (read_single_address_spec p cur w)
    as (o1 & w1 & evs0 & E & Hr & _ & _ & Hok & _).
  destruct (read_single_address_effects p cur w)
    as (o1' & w1' & evs & E' & Hio & Hpaced & Happ & Hlow & _).
  rewrite E in E'. injection E' as <- <-. rewrite E.
  assert (Hprog : forall w2 (r : option (list byte)) evs2,
            reads w2 = (reads w ++ [(cur, Ret r)])%list ->
            io w2 = (io w ++ evs2)%list ->
            Trace.paced evs2 ->
            Trace.line_of cur (Ret r) = Trace.appended evs2 ->
            (Spec.low_count (error_recovery (self w)) ->
             Spec.low_count (error_recovery (self w2))) ->
            exists o w' r' evs' tail,
              progress p rc total w2 = (o, w')
              /\ reads w' = (reads w ++ [(cur, r')])%list
              /\ io w' = (io w ++ evs')%list
              /\ Trace.paced evs'
              /\ Trace.line_of cur r' = (Trace.appended evs' ++ tail)%list
              /\ (forall x, o = Ret x -> tail = [])
              /\ Spec.keeps_recovery (naps p <> Some Cooldown) o
                   (error_recovery (self w)) (error_recovery (self w'))
              /\ (Spec.quiet p -> o = Ret tt)).
  { intros w2 r evs2 Hr2 Hio2 Hp2 Hl2 Hlow2.
    destruct (progress_spec p rc total w2 Hp) as (o2 & E2 & _ & Hcalm).
    exists o2, w2, (Ret r), evs2, [].
    split; [exact E2|]. split; [exact Hr2|]. split; [exact Hio2|].
    split; [exact Hp2|]. split; [rewrite app_nil_r; exact Hl2|].
    split; [reflexivity|]. split; [apply keeps_recovery_low; exact Hlow2|].
    intros (_ & _ & _ & _ & Ht & _). exact (Hcalm Ht). }
  assert (Hret : forall x, Spec.low_count (error_recovery (self w)) -> o1 = Ret x ->
                           Spec.low_count (error_recovery (self w1))).
  { intros x H Hx. exact (proj2 (proj2 (Hlow H)) x Hx). }
  assert (Hnil : forall l : list string, l = (Trace.appended evs ++ l)%list)
    by (intros; rewrite Happ; reflexivity).
  destruct o1 as [[d|]|e0].
  - unfold Trace.line_of, Spec.storedb in *.
    destruct (length d <? 4)%nat eqn:El; simpl.
    + apply (Hprog w1 (Some d) evs);
        [exact Hr|exact Hio|exact Hpaced| |intros H; exact (Hret _ H eq_refl)].
      simpl. rewrite El. simpl. symmetry. exact Happ.
    + destruct (bytes_eqb d NULL_PATTERN) eqn:Eb; simpl.
      * apply (Hprog w1 (Some d) evs);
          [exact Hr|exact Hio|exact Hpaced| |intros H; exact (Hret _ H eq_refl)].
        simpl. rewrite El, Eb. simpl. symmetry. exact Happ.
      * unfold store_discovery, file_append, console_out, modify_self, emit, raise,
          mbind, mret, M_bind, M_ret.
        destruct (console p) eqn:Ec; simpl;
          [destruct (disk p) eqn:Ed; simpl|..].
        -- apply (Hprog _ (Some d)
                     (evs ++ [Append (Fmt.addr08 cur ++ ": " ++ Fmt.hex_join d)])%list);
             simpl.
           ++ exact Hr.
           ++ rewrite Hio, <- app_assoc. reflexivity.
           ++ apply paced_app; [exact Hpaced|]. paced_goal.
           ++ rewrite El, Eb, appended_app, Happ. reflexivity.
           ++ intros H; exact (Hret _ H eq_refl).
        -- do 2 eexists. exists (Ret (Some d)), evs. eexists.
           split; [reflexivity|]. simpl. rewrite El, Eb. simpl.
           split; [exact Hr|]. split; [exact Hio|]. split; [exact Hpaced|].
           split; [apply Hnil|]. split; [discriminate|].
           split; [apply keeps_recovery_low; intros H; exact (Hret _ H eq_refl)|].
           intros (_ & _ & H & _). congruence.
        -- do 2 eexists. exists (Ret (Some d)), evs. eexists.
           split; [reflexivity|]. simpl. rewrite El, Eb. simpl.
           split; [exact Hr|]. split; [exact Hio|]. split; [exact Hpaced|].
           split; [apply Hnil|]. split; [discriminate|].
           split; [apply keeps_recovery_low; intros H; exact (Hret _ H eq_refl)|].
           intros (_ & _ & H & _). congruence.
        -- do 2 eexists. exists (Ret (Some d)), evs. eexists.
           split; [reflexivity|]. simpl. rewrite El, Eb. simpl.
           split; [exact Hr|]. split; [exact Hio|]. split; [exact Hpaced|].
           split; [apply Hnil|]. split; [discriminate|].
           split; [apply keeps_recovery_low; intros H; exact (Hret _ H eq_refl)|].
           intros (_ & _ & _ & H & _). congruence.
        -- do 2 eexists. exists (Ret (Some d)), evs. eexists.
           split; [reflexivity|]. simpl. rewrite El, Eb. simpl.
           split; [exact Hr|]. split; [exact Hio|]. split; [exact Hpaced|].
           split; [apply Hnil|]. split; [discriminate|].
           split; [apply keeps_recovery_low; intros H; exact (Hret _ H eq_refl)|].
           intros (_ & _ & _ & H & _). congruence.
  - simpl. apply (Hprog w1 None evs);
      [exact Hr|exact Hio|exact Hpaced| |intros H; exact (Hret _ H eq_refl)].
    simpl. symmetry. exact Happ.
  - exists (Raise e0), w1, (Raise e0), evs, []. simpl. rewrite app_nil_r.
    split; [reflexivity|]. split; [exact Hr|]. split; [exact Hio|].
    split; [exact Hpaced|]. split; [symmetry; exact Happ|].
    split; [reflexivity|]. split.
    { intros H. destruct (Hlow H) as (Hm & Hn & _).
      split; [exact Hm|]. split; [exact Hn|discriminate]. }
    intros (Hu & He & _ & _ & _ & Hn). discriminate (Hok Hu He Hn).
Qed.

Lemma scan_loop_effects fuel : forall env e step total cur rc w,
  1 <= step ->
  e - cur <= Z.of_nat fuel ->
  (forall n, rc < n -> cur + (n - rc - 1) * step < e -> Spec.progress_ok n total) ->
  exists o w' new evs tail,
    scan_loop fuel env e step total cur rc w = (o, w')
    /\ reads w' = (reads w ++ new)%list
    /\ io w' = (io w ++ evs)%list
    /\ Trace.paced evs
    /\ Trace.lines_of new = (Trace.appended evs ++ tail)%list
    /\ (length tail <= 1)%nat
    /\ (forall x, o = Ret x -> tail = [])
    /\ Spec.keeps_recovery (forall n, naps (env n) <> Some Cooldown) o
         (error_recovery (self w)) (error_recovery (self w'))
    /\ ((forall n, Spec.quiet (env n)) -> o = Ret tt).
Proof.
  induction fuel as [|fuel IH]; intros env e step total cur rc w Hstep Hfuel Hprog.
  - exists (Ret tt), w, [], [], []. simpl. rewrite !app_nil_r.
    (split; [reflexivity|]); (split; [reflexivity|]); (split; [reflexivity|]);
      (split; [constructor|]); (split; [reflexivity|]); (split; [simpl; lia|]);
      (split; [reflexivity|]);
      (split; [apply keeps_recovery_low; exact (fun H => H)|reflexivity]).
  - unfold scan_loop; fold scan_loop. destruct (Z.ltb_spec cur e) as [Hlt|Hge].
    + unfold mbind, M_bind.
      assert (Hp1 : Spec.progress_ok (rc + 1) total).
      { apply Hprog; [lia|]. replace (rc + 1 - rc - 1) with 0 by lia. lia. }
      destruct (scan_iteration_effects (env (rc + 1)) total cur (rc + 1) w Hp1)
        as (o1 & w1 & r & evs1 & tail1 & E1 & Hr1 & Hio1 & Hp & Hl1 & Ht1 & Hlow1 & Hq1).
      rewrite E1. destruct o1 as [[]|e0].
      * destruct (IH env e step total (cur + step) (rc + 1) w1) as
          (o2 & w2 & new2 & evs2 & tail2 & E2 & Hr2 & Hio2 & Hp2 & Hl2 & Hlen2 & Ht2
           & Hlow2 & Hq2); [lia|lia| |].
        { intros n Hn Hlt'. apply Hprog; [lia|].
          replace (cur + (n - rc - 1) * step)
            with (cur + step + (n - (rc + 1) - 1) * step) by ring. exact Hlt'. }
        exists o2, w2, ((cur, r) :: new2), (evs1 ++ evs2)%list, tail2. rewrite E2.
        split; [reflexivity|]. rewrite Hr2, Hr1, Hio2, Hio1, <- !app_assoc.
        split; [reflexivity|]. split; [reflexivity|].
        split; [apply paced_app; assumption|].
        split.
        { unfold Trace.lines_of in *. simpl. rewrite Hl1, Hl2, (Ht1 tt eq_refl).
          rewrite appended_app, app_nil_r, <- app_assoc. reflexivity. }
        split; [exact Hlen2|]. split; [exact Ht2|]. split; [|exact Hq2].
        intros H. apply Hlow2. exact (proj2 (proj2 (Hlow1 H)) tt eq_refl).
      * exists (Raise e0), w1, [(cur, r)], evs1, tail1.
        split; [reflexivity|]. split; [exact Hr1|]. split; [exact Hio1|].
        split; [exact Hp|].
        split; [unfold Trace.lines_of; simpl; rewrite app_nil_r; exact Hl1|].
        split.
        { pose proof (line_of_length cur r) as Hle. rewrite Hl1, length_app in Hle. lia. }
        split; [discriminate|]. split.
        { intros H. destruct (Hlow1 H) as (Hm & Hn & _).
          split; [exact Hm|]. split; [intros Hall; exact (Hn (Hall _))|discriminate]. }
        intros Hq. discriminate (Hq1 (Hq _)).
    + exists (Ret tt), w, [], [], []. simpl. rewrite !app_nil_r.
      (split; [reflexivity|]); (split; [reflexivity|]); (split; [reflexivity|]);
      (split; [constructor|]); (split; [reflexivity|]); (split; [simpl; lia|]);
      (split; [reflexivity|]);
      (split; [apply keeps_recovery_low; exact (fun H => H)|reflexivity]).
Qed.

Lemma scan_memory_effects con env start e step w :
  exists o w' new evs tail,
    scan_memory con env start e step w = (o, w')
    /\ reads w' = (reads w ++ new)%list
    /\ io w' = (io w ++ evs)%list
    /\ Trace.paced evs
    /\ Trace.lines_of new = (Trace.appended evs ++ tail)%list
    /\ (length tail <= 1)%nat
    /\ ((forall n, Spec.quiet (env n)) -> tail = [])
    /\ (Spec.low_count (error_recovery (self w)) ->
        Spec.mid_recovery (error_recovery (self w'))
        /\ ((forall n, naps (env n) <> Some Cooldown) ->
            Spec.low_count (error_recovery (self w')))).
Proof.
  set (step' := if step <? 1 then 4 else step).
  assert (Hs : 1 <= step').
  { unfold step'. destruct (Z.ltb_spec step 1); lia. }
  unfold scan_memory. fold step'.
  unfold try_except, modify_self, get_self, console_out, raise, mbind, mret,
    M_bind, M_ret.
  set (w0 := {| self := set_scan_results ∅ (self w); io := io w; reads := reads w |}).
  assert (Hw0 : error_recovery (self w0) = error_recovery (self w)).
  { destruct w as [s i r]. destruct s. reflexivity. }
  destruct con as [b s oi oe]; simpl.
  destruct b as [|msg|].
  - destruct (scan_loop_effects (Z.to_nat (e - start)) env e step' ((e - start) / step')
                start 0 w0 Hs)
      as (o & w' & new & evs & tail & E & Hr & Hio & Hp & Hl & Hlen & Ht & Hlow & Hq).
    { lia. }
    { intros n Hn Hlt. apply first_progress; auto. }
    rewrite E. rewrite Hw0 in Hlow.
    assert (Hrec : Spec.low_count (error_recovery (self w)) ->
              Spec.mid_recovery (error_recovery (self w'))
              /\ ((forall n, naps (env n) <> Some Cooldown) ->
                  Spec.low_count (error_recovery (self w')))).
    { intros H. destruct (Hlow H) as (Hm & Hn & _). split; assumption. }
    assert (Htail : (forall n, Spec.quiet (env n)) -> tail = []).
    { intros H. exact (Ht tt (Hq H)). }
    destruct o as [[]|e0];
      [destruct s as [|msg|] | destruct e0];
      destruct oi as [|msgi|], oe as [|msge|];
      (eexists; exists w', new, evs, tail; split; [reflexivity|];
       split; [exact Hr|]; split; [exact Hio|]; split; [exact Hp|];
       split; [exact Hl|]; split; [exact Hlen|]; split; [exact Htail|exact Hrec]).
  - eexists. exists w0, [], [], []. split; [reflexivity|].
    split; [symmetry; apply app_nil_r|]. split; [symmetry; apply app_nil_r|].
    split; [constructor|]. split; [reflexivity|]. split; [simpl; lia|].
    split; [reflexivity|]. rewrite Hw0. intros H. split; [exact (low_mid _ H)|auto].
  - eexists. exists w0, [], [], []. split; [reflexivity|].
    split; [symmetry; apply app_nil_r|]. split; [symmetry; apply app_nil_r|].
    split; [constructor|]. split; [reflexivity|]. split; [simpl; lia|].
    split; [reflexivity|]. rewrite Hw0. intros H. split; [exact (low_mid _ H)|auto].
Qed.

Lemma discoveries_size new : forall (m : gmap Z string),
  NoDup (map fst new) ->
  (forall a, In a (map fst new) -> m !! a = None) ->
  size (Spec.discoveries new m) = (size m + length (Trace.lines_of new))%nat.
Proof.
  induction new as [|[a0 r0] new IH]; intros m Hnd Hm.
  - simpl. lia.
  - simpl in Hnd. apply NoDup_cons in Hnd as [Hn0 Hnd].
    rewrite list_elem_of_In in Hn0.
    change (Spec.discoveries ((a0, r0) :: new) m)
      with (Spec.discoveries new (Spec.note a0 r0 m)).
    change (Trace.lines_of ((a0, r0) :: new))
      with (Trace.line_of a0 r0 ++ Trace.lines_of new)%list.
    rewrite IH, length_app; [|exact Hnd|].
    + assert (Hm0 : m !! a0 = None) by (apply Hm; left; reflexivity).
      unfold Spec.note, Trace.line_of. destruct r0 as [[d|]|]; simpl; try lia.
      destruct (Spec.storedb d); simpl; [|lia].
      rewrite map_size_insert_None by exact Hm0. lia.
    + intros a Ha. assert (a0 <> a) by (intros ->; contradiction).
      assert (Hma : m !! a = None) by (apply Hm; right; exact Ha).
      unfold Spec.note. destruct r0 as [[d|]|]; auto.
      destruct (Spec.storedb d); auto.
      rewrite lookup_insert_ne by assumption. exact Hma.
Qed.

(** ** The sweep, continued *)

(** X17: in everything [scan_memory] does to the outside world, whatever
    the device, the helper, the console and the user do, each read from
    the device comes directly after a 10 ms sleep that comes directly
    after the write of a peek command. *)
Theorem X17_every_device_read_waits_10ms
    (con : scan_console) (env : Z -> probe) (start_addr end_addr step : Z) (w : world) :
  exists evs,
    io (snd (scan_memory con env start_addr end_addr step w)) = (io w ++ evs)%list
    /\ Trace.delay_respected evs.
Proof.
  destruct (scan_memory_effects con env start_addr end_addr step w)
    as (o & w' & new & evs & tail & E & _ & Hio & Hp & _).
  rewrite E. exists evs. split; [exact Hio|]. apply paced_delay_respected. exact Hp.
Qed.

(** X18: the lines appended to the results file during a sweep are, in
    order, the lines of the stored reads, except that the line of the
    last stored read is missing when printing or appending it failed or
    was interrupted; the dictionary has as many entries as there are
    stored reads, so it is at most one entry ahead of the file, and
    level with it when nothing interrupts the sweep; it is what
    [scan_memory] returns when the console works before the [try] and in
    the [except] clauses. *)
Theorem X18_results_file_follows_the_dictionary
    (con : scan_console) (env : Z -> probe) (start_addr end_addr step : Z) (w : world) :
  exists o w' new evs tail,
    scan_memory con env start_addr end_addr step w = (o, w')
    /\ (banner con = ConsoleOk -> on_interrupt con = ConsoleOk ->
        on_error con = ConsoleOk -> o = Ret (scan_results (self w')))
    /\ reads w' = (reads w ++ new)%list
    /\ io w' = (io w ++ evs)%list
    /\ Trace.lines_of new = (Trace.appended evs ++ tail)%list
    /\ (length tail <= 1)%nat
    /\ ((forall n, Spec.quiet (env n)) -> tail = [])
    /\ size (scan_results (self w')) = (length (Trace.appended evs) + length tail)%nat.
Proof.
  destruct (scan_memory_effects con env start_addr end_addr step w)
    as (o & w' & new & evs & tail & E & Hr & Hio & _ & Hl & Hlen & Hq & _).
  destruct (scan_memory_spec con env start_addr end_addr step w)
    as (c & o2 & w2 & new2 & E2 & Hr2 & Hd & Ht & Hfail & Hret & _).
  rewrite E in E2. injection E2 as <- <-.
  rewrite Hr in Hr2. apply app_inv_head in Hr2. subst new2.
  exists o, w', new, evs, tail.
  split; [exact E|]. split; [exact Hret|]. split; [exact Hr|]. split; [exact Hio|].
  split; [exact Hl|]. split; [exact Hlen|]. split; [exact Hq|].
  assert (Hs : 1 <= (if step <? 1 then 4 else step))
    by (destruct (Z.ltb_spec step 1); lia).
  assert (Hm : map fst new = Spec.sweep (length new) start_addr
                                        (if step <? 1 then 4 else step)).
  { destruct (banner con) eqn:Eb.
    - destruct (sweep_trace_addresses _ _ _ _ _ _ _ (Ht eq_refl)) as (Hm & _).
      exact Hm.
    - destruct Hfail as [-> _]; [discriminate|reflexivity].
    - destruct Hfail as [-> _]; [discriminate|reflexivity]. }
  rewrite Hd, discoveries_size.
  - rewrite map_size_empty, Hl, length_app. reflexivity.
  - rewrite Hm. apply sweep_NoDup. exact Hs.
  - intros. apply lookup_empty.
Qed.



(** ** Transport, continued *)

Lemma firstn_16_512 (r : list byte) : firstn 16 (firstn 512 r) = firstn 16 r.
Proof. rewrite firstn_firstn. reflexivity. Qed.

(** X20: a response that does not start with 0x04, received after a
    delay that the user did not interrupt, counts as a success for the
    recovery policy and the diagnostics whatever its length: the counter
    is reset, the first 16 bytes are logged with status OK and no error
    entry is added; the read itself returns the first four bytes, or
    nothing when fewer than four came. *)
Theorem X20_short_response_is_logged_as_ok
    (p : probe) (address : Z) (w : world) (r : list byte) :
  Spec.native_available (self w) = true ->
  usb p = UsbResponds r ->
  naps p <> Some PeekDelay ->
  Spec.first_byte_is x04 r = false ->
  let '(o, w') := _read_memory_pyusb p address w in
  o = Ret (if (4 <=? length r)%nat then Some (firstn 4 r) else None)
  /\ ((length r < 4)%nat -> o = Ret None)
  /\ error_recovery (self w')
     = USBErrorRecovery.reset_error_count (error_recovery (self w))
  /\ sla_logger (self w')
     = (if enable_diagnostics (self w)
        then option_map
               (SLAResponseLogger.log_response (clock p) "pyusb" "peek_response"
                  (firstn 16 r) "OK")
               (sla_logger (self w))
        else sla_logger (self w)).
Proof.
  destruct w as [s i rd]. destruct s as [eb ld dv up lf sr ed sl er].
  destruct p as [ck u e d co ti np]. unfold Spec.native_available; simpl.
  intros Hav -> Hn H4. apply andb_prop in Hav as [-> ->].
  unfold_transport; simpl.
  assert (Hshort : (length r < 4)%nat ->
            (if (4 <=? length r)%nat then Some (firstn 4 r) else None) = None).
  { intros Hl. destruct (Nat.leb_spec 4 (length r)); [lia|reflexivity]. }
  destruct np as [[| |]|]; [exfalso; apply Hn; reflexivity|..]; simpl;
    rewrite (first_byte_firstn 511 r), H4; simpl;
    rewrite (native_firstn r), (firstn_16_512 r);
    destruct sl as [l|], ed; simpl;
    (split; [reflexivity|]); (split; [intros Hl; rewrite (Hshort Hl); reflexivity|]);
    split; reflexivity.
Qed.

Lemma X20_short_response_is_logged_as_ok_witness :
  let '(o, w') := _read_memory_pyusb Example2.short_probe 0x00701000 Example.scanner in
  o = Ret None /\ error_count (error_recovery (self w')) = 0.
Proof.
  assert (Hn : naps Example2.short_probe <> Some PeekDelay) by discriminate.
  generalize (X20_short_response_is_logged_as_ok Example2.short_probe 0x00701000
                Example.scanner [x01; x02] eq_refl eq_refl Hn eq_refl).
  destruct (_read_memory_pyusb Example2.short_probe 0x00701000 Example.scanner)
    as [o w'].
  intros (_ & Ho & Hr & _). split; [apply Ho; simpl; lia|].
  rewrite Hr. reflexivity.
Defined.

(** X21: an exception of the device other than a timeout (on the write,
    or on the read after a delay that the user did not interrupt) makes
    the native read fail without reaching the recovery policy: the
    policy object is unchanged, and with diagnostics on one
    [usb_exception] entry carrying the message and the address is
    logged. *)
Theorem X21_usb_exception_bypasses_recovery
    (p : probe) (address : Z) (w : world) (msg : string) :
  Spec.native_available (self w) = true ->
  usb p = UsbWriteRaises msg
  \/ (usb p = UsbReadRaises msg /\ naps p <> Some PeekDelay) ->
  let '(o, w') := _read_memory_pyusb p address w in
  o = Ret None
  /\ error_recovery (self w') = error_recovery (self w)
  /\ sla_logger (self w')
     = (if enable_diagnostics (self w)
        then option_map
               (SLAResponseLogger.log_error (clock p) "usb_exception" msg
                  (Some (SLAResponseLogger.CtxFields
                           [("address", Fmt.addr08 address)])))
               (sla_logger (self w))
        else sla_logger (self w)).
Proof.
  destruct w as [s i rd]. destruct s as [eb ld dv up lf sr ed sl er].
  destruct p as [ck u e d co ti np]. unfold Spec.native_available; simpl.
  intros Hav Hu. apply andb_prop in Hav as [-> ->].
  unfold_transport; simpl.
  destruct Hu as [-> | [-> Hn]]; simpl.
  - destruct sl as [l|], ed; simpl; repeat split.
  - destruct np as [[| |]|]; [exfalso; apply Hn; reflexivity|..]; simpl;
      destruct sl as [l|], ed; simpl; repeat split.
Qed.

Lemma X21_usb_exception_bypasses_recovery_witness :
  let '(o, w') := _read_memory_pyusb Example2.broken_probe 0x00701000 Example.scanner in
  o = Ret None /\ error_recovery (self w') = USBErrorRecovery.init.
Proof.
  generalize (X21_usb_exception_bypasses_recovery Example2.broken_probe 0x00701000
                Example.scanner "Input/Output Error" eq_refl (or_introl eq_refl)).
  destruct (_read_memory_pyusb Example2.broken_probe 0x00701000 Example.scanner)
    as [o w'].
  intros (Ho & Hr & _). split; [exact Ho|exact Hr].
Defined.

(** X22: when the native channel is not available, a read goes through
    the helper only and leaves the scanner object as it was: whatever
    the helper does, nothing is logged in the diagnostics and the
    recovery policy is not told. *)
Theorem X22_helper_only_read_leaves_no_trace_in_the_object
    (p : probe) (address : Z) (w : world) :
  Spec.native_available (self w) = false ->
  self (snd (_read_single_address p address w)) = self w.
Proof.
  intros Hav.
  destruct (read_single_address_effects p address w)
    as (o & w' & evs & E & _ & _ & _ & _ & Hs).
  rewrite E. exact (Hs Hav).
Qed.

Lemma X22_helper_only_read_leaves_no_trace_in_the_object_witness :
  self (snd (_read_single_address Example.degraded_probe 0x00701000
               Example2.helper_scanner))
  = self Example2.helper_scanner.
Proof.
  apply (X22_helper_only_read_leaves_no_trace_in_the_object Example.degraded_probe
           0x00701000 Example2.helper_scanner).
  reflexivity.
Defined.
